(** * osnap.analytics.cluster: adapters over third-party clustering libraries

    A shallow embedding of [osnap/analytics/cluster.py].  The module is a flat
    set of eleven functions; each one builds a model object of an external
    library (scikit-learn, hdbscan, spenc, region), calls that library's fit
    routine on it and returns the object.

    The external libraries are not part of the repository: they are a
    parameter of the development (class [Library]).  Python objects live in
    a heap addressed by locations, every call into a library is recorded in
    a trace, and the adapters are programs of a state-and-exception monad. *)

From Stdlib Require Import ZArith QArith.
From stdpp Require Import gmap strings list fin_maps.

Close Scope Q_scope.
Open Scope Z_scope.

(** ** Python values *)

(** Heap locations of model instances. *)
Definition loc := nat.

(** A Python float: a finite number (by its rational value) or one of the
    IEEE specials that [np.inf] and friends produce. *)
Inductive pyfloat :=
  | FFin (q : Q)
  | FPosInf
  | FNegInf
  | FNaN.

Definition Qltb (x y : Q) : bool :=
  (Qnum x * Zpos (Qden y) <? Qnum y * Zpos (Qden x))%Z.

(** [a < b] on floats; every comparison with NaN is false. *)
Definition float_lt (a b : pyfloat) : bool :=
  match a, b with
  | FNaN, _ | _, FNaN => false
  | FFin x, FFin y => Qltb x y
  | FFin _, FPosInf => true
  | FNegInf, FFin _ => true
  | FNegInf, FPosInf => true
  | _, _ => false
  end.

Definition float_add_int (a : pyfloat) (k : Z) : pyfloat :=
  match a with
  | FFin q => FFin (Qplus q (inject_Z k))
  | other => other
  end.

(** [np.inf], [np.infty] and [-np.inf]. *)
Definition np_inf : pyfloat := FPosInf.
Definition np_infty : pyfloat := FPosInf.
Definition neg_np_inf : pyfloat := FNegInf.

(** Array payloads (n x k data, label vectors, sparse matrices) are kept as
    rows of integers: the adapters never look inside them. *)
Abbreviation array := (list (list Z)).

Inductive value :=
  | VNone
  | VBool (b : bool)
  | VInt (n : Z)
  | VFloat (x : pyfloat)
  | VStr (s : string)
  | VArray (a : array)          (* numpy ndarray *)
  | VSparse (m : array)         (* scipy sparse matrix *)
  | VFrame (values : array)     (* pandas DataFrame, has [.values] *)
  | VW (sparse : array)         (* PySAL W instance, has [.sparse] *)
  | VRef (l : loc).             (* a model instance in the heap *)

(** Keyword arguments written at a call site, in source order. *)
Abbreviation kwlist := (list (string * value)).

(** [x is None] and [x is True]. *)
Definition is_None (v : value) : bool :=
  match v with VNone => true | _ => false end.

Definition is_True (v : value) : bool :=
  match v with VBool true => true | _ => false end.

(** ** Exceptions and results *)

Inductive exn :=
  | TypeError
  | AttributeError (name : string)
  | UnboundLocalError (var : string)
  | LibraryError (msg : string)       (* raised inside an external library *)
  | InvalidReference (l : loc).       (* no object at this location *)

Inductive result (A : Type) :=
  | Ok (a : A)
  | Raise (e : exn).
Arguments Ok {A} a.
Arguments Raise {A} e.

(** What a call into an external library does: return or raise. *)
Inductive outcome (A : Type) :=
  | Returns (a : A)
  | Raises (msg : string).
Arguments Returns {A} a.
Arguments Raises {A} msg.

Definition outcome_result {A} (o : outcome A) : result A :=
  match o with
  | Returns a => Ok a
  | Raises msg => Raise (LibraryError msg)
  end.

(** ** The external libraries *)

(** The model classes imported at the top of the module. *)
Inductive class :=
  | HDBSCAN                    (* hdbscan *)
  | MaxPRegionsHeu             (* region.max_p_regions.heuristics *)
  | AZP                        (* region.p_regions.azp *)
  | Spanning_Forest            (* region.skater.skater *)
  | AffinityPropagation        (* sklearn.cluster *)
  | AgglomerativeClustering
  | KMeans
  | SpectralClustering
  | GaussianMixture            (* sklearn.mixture *)
  | SPENC.                     (* spenc *)

#[global] Instance class_eq_dec : EqDecision class.
Proof. solve_decision. Defined.

(** A model instance: its class and its attribute dictionary. *)
Record object := Object {
  obj_class : class;
  obj_attrs : gmap string value;
}.

(** The behaviour of the libraries.  [ext] is whatever state they keep of
    their own (numpy's global random generator, for one).  A constructor
    gets the call's arguments and yields the attributes of the new
    instance; a method gets the receiver's class and attributes and the
    arguments, and yields its outcome and the receiver's new attributes. *)
Class Library (ext : Type) := {
  lib_new : class -> list value -> kwlist -> ext ->
            outcome (gmap string value) * ext;
  lib_method : class -> string -> gmap string value ->
               list value -> kwlist -> ext ->
               outcome value * gmap string value * ext;
}.

(** Calls into the libraries, as observed from outside. *)
Inductive event :=
  | ENew (c : class) (args : list value) (kw : kwlist) (res : outcome loc)
  | ECall (l : loc) (meth : string) (args : list value) (kw : kwlist)
          (res : outcome value).

(** ** Module namespace *)

(** The functions the module defines, by name. *)
Inductive entry :=
  | def_ward
  | def_kmeans
  | def_affinity_propagation
  | def_spectral
  | def_gaussian_mixture
  | def_hdbscan
  | def_ward_spatial
  | def_spenc
  | def_skater
  | def_azp
  | def_max_p.

#[global] Instance entry_eq_dec : EqDecision entry.
Proof. solve_decision. Defined.

(** What a module-level name is bound to. *)
Inductive binding :=
  | Imported (qualified : string)
  | Function (f : entry).

(** The key under which the warnings machinery files a warning in a
    registry: the text, the category and the line of the call of
    [warn]. *)
Definition warning_key : Type := string * string * Z.

(** The globals of the module: the names its top-level statements bind,
    and [__warningregistry__], which is not there until [warnings.warn]
    is called from the module for the first time.  The registry is a
    dictionary from keys to [True], here the list of its keys; its entry
    [version], which stays as it is as long as the filters do, is left
    out. *)
Record globals := Globals {
  bindings : gmap string binding;
  warningregistry : option (list warning_key);
}.

(** [registry[key] = True] in the [__warningregistry__] of [g], which is
    created if it is not there, unless the registry has the key
    already. *)
Definition register (key : warning_key) (g : globals) : globals :=
  let registry := default [] (warningregistry g) in
  Globals (bindings g)
          (Some (if decide (key ∈ registry) then registry
                 else registry ++ [key])).

(** ** Program state and the monad of the adapters *)

Record state (ext : Type) := State {
  st_module : globals;                (* the globals of the module *)
  st_heap : list object;              (* model instances, by location *)
  st_ext : ext;                       (* the libraries' own state *)
  st_trace : list event;              (* calls into the libraries so far *)
  st_warnings : list string;          (* messages passed to [warn] *)
}.
Arguments State {ext}.
Arguments st_module {ext}.
Arguments st_heap {ext}.
Arguments st_ext {ext}.
Arguments st_trace {ext}.
Arguments st_warnings {ext}.

Definition M (ext : Type) (A : Type) : Type := state ext -> result A * state ext.

Definition M_ret {ext A} (a : A) : M ext A := fun s => (Ok a, s).

Definition M_bind {ext A B} (f : A -> M ext B) (m : M ext A) : M ext B :=
  fun s =>
    match m s with
    | (Ok a, s') => f a s'
    | (Raise e, s') => (Raise e, s')
    end.

#[global] Instance M_mret ext : MRet (M ext) := @M_ret ext.
#[global] Instance M_mbind ext : MBind (M ext) := @M_bind ext.

Definition raise {ext A} (e : exn) : M ext A := fun s => (Raise e, s).

Definition lift_result {ext A} (r : result A) : M ext A := fun s => (r, s).

(** ** Python arithmetic used by the module *)

(** Numbers as floats, for comparisons ([bool] is a subtype of [int]). *)
Definition as_float (v : value) : option pyfloat :=
  match v with
  | VBool b => Some (FFin (inject_Z (Z.b2z b)))
  | VInt n => Some (FFin (inject_Z n))
  | VFloat x => Some x
  | _ => None
  end.

(** [a < b] followed by its truth test.  Operands that are not scalars of
    a numeric type make one of the two steps raise. *)
Definition py_lt (a b : value) : result bool :=
  match as_float a, as_float b with
  | Some x, Some y => Ok (float_lt x y)
  | _, _ => Raise TypeError
  end.

(** [v + k] for an integer literal [k]. *)
Definition py_add_int (v : value) (k : Z) : result value :=
  match v with
  | VBool b => Ok (VInt (Z.b2z b + k))
  | VInt n => Ok (VInt (n + k))
  | VFloat x => Ok (VFloat (float_add_int x k))
  | VArray a => Ok (VArray (map (map (fun z => z + k)) a))
  | VFrame a => Ok (VFrame (map (map (fun z => z + k)) a))
  | VSparse _ => Raise (LibraryError "NotImplementedError")
  | VNone | VStr _ | VW _ | VRef _ => Raise TypeError
  end.

(** [range(lo, hi)]: the integers from [lo] up to [hi - 1]; [hi] has to be
    an integer. *)
Definition py_range (lo : Z) (hi : value) : result (list Z) :=
  match hi with
  | VBool b => Ok (seqZ lo (Z.b2z b - lo))
  | VInt n => Ok (seqZ lo (n - lo))
  | _ => Raise TypeError
  end.

(** ** Operations of the embedding *)

Section Operations.
Context {ext : Type} {L : Library ext}.

(** Instantiate a library class with the given positional and keyword
    arguments. *)
Definition new (c : class) (args : list value) (kw : kwlist) : M ext loc :=
  fun s =>
    let '(res, e') := lib_new c args kw (st_ext s) in
    match res with
    | Returns attrs =>
        let l := length (st_heap s) in
        (Ok l,
         State (st_module s) (st_heap s ++ [Object c attrs]) e'
               (st_trace s ++ [ENew c args kw (Returns l)]) (st_warnings s))
    | Raises msg =>
        (Raise (LibraryError msg),
         State (st_module s) (st_heap s) e'
               (st_trace s ++ [ENew c args kw (Raises msg)]) (st_warnings s))
    end.

(** Call method [meth] of a model instance. *)
Definition call (l : loc) (meth : string) (args : list value) (kw : kwlist)
  : M ext value :=
  fun s =>
    match st_heap s !! l with
    | None => (Raise (InvalidReference l), s)
    | Some o =>
        let '(res, attrs', e') :=
          lib_method (obj_class o) meth (obj_attrs o) args kw (st_ext s) in
        (outcome_result res,
         State (st_module s) (<[l := Object (obj_class o) attrs']> (st_heap s)) e'
               (st_trace s ++ [ECall l meth args kw res]) (st_warnings s))
    end.

(** [obj.name] on a model instance. *)
Definition getattr (l : loc) (name : string) : M ext value :=
  fun s =>
    match st_heap s !! l with
    | None => (Raise (InvalidReference l), s)
    | Some o =>
        match obj_attrs o !! name with
        | Some v => (Ok v, s)
        | None => (Raise (AttributeError name), s)
        end
    end.

(** [obj.name = v] on a model instance. *)
Definition setattr (l : loc) (name : string) (v : value) : M ext unit :=
  fun s =>
    match st_heap s !! l with
    | None => (Raise (InvalidReference l), s)
    | Some o =>
        (Ok tt,
         State (st_module s)
               (<[l := Object (obj_class o) (<[name := v]> (obj_attrs o))]> (st_heap s))
               (st_ext s) (st_trace s) (st_warnings s))
    end.

(** [v.name] on an argument: [w.sparse], [X.values]. *)
Definition value_getattr (v : value) (name : string) : M ext value :=
  match v with
  | VW m => if String.eqb name "sparse" then mret (VSparse m)
            else raise (AttributeError name)
  | VFrame a => if String.eqb name "values" then mret (VArray a)
                else raise (AttributeError name)
  | VRef l => getattr l name
  | _ => raise (AttributeError name)
  end.

(** [warnings.warn(msg)] at line [lineno] of the module, under the
    filters the interpreter starts with and that nobody changes.  The
    category is the default one, and the registry is the
    [__warningregistry__] of the globals of the calling module: [warn]
    looks the warning up there and enters it when it is new.  (A new
    warning is shown, one that the registry has is not; what is shown
    goes to the standard error stream and is not part of the state.) *)
Definition warn (lineno : Z) (msg : string) : M ext unit :=
  fun s =>
    (Ok tt,
     State (register (msg, "UserWarning", lineno) (st_module s))
           (st_heap s) (st_ext s) (st_trace s) (st_warnings s ++ [msg])).

(** [for x in xs: acc = body(acc, x)]. *)
Fixpoint for_each {A B} (xs : list A) (body : B -> A -> M ext B) (acc : B)
  : M ext B :=
  match xs with
  | [] => mret acc
  | x :: xs' => acc' ← body acc x; for_each xs' body acc'
  end.

End Operations.

(** ** The adapters of [cluster.py] *)

Section Cluster.
Context {ext : Type} {L : Library ext}.

(** *** Sklearn a-spatial models *)

Definition ward (X n_clusters : value) (kwargs : gmap string value)
  : M ext value :=
  model ← new AgglomerativeClustering []
            [("n_clusters", n_clusters); ("linkage", VStr "ward")];
  _ ← call model "fit" [X] [];
  mret (VRef model).

Definition kmeans (X n_clusters seed : value) (kwargs : gmap string value)
  : M ext value :=
  model ← new KMeans [n_clusters] [("random_state", seed)];
  _ ← call model "fit" [X] [];
  mret (VRef model).

Definition affinity_propagation (X damping preference verbose max_iter : value)
    (kwargs : gmap string value) : M ext value :=
  model ← new AffinityPropagation []
            [("preference", preference); ("damping", damping);
             ("verbose", verbose)];
  _ ← call model "fit" [X] [];
  mret (VRef model).

Definition spectral (X n_clusters n_jobs affinity : value)
    (kwargs : gmap string value) : M ext value :=
  model ← new SpectralClustering []
            [("n_clusters", n_clusters); ("n_jobs", n_jobs);
             ("affinity", affinity)];
  _ ← call model "fit" [X] [];
  mret (VRef model).

Definition gaussian_mixture_warning : string :=
  "Note: Gaussian Mixture Clustering is probabilistic--cluster labels may be different for different runs. If you need consistency,you should set the `random_state` parameter".

(** The key of this warning: [warn] is called at line 178. *)
Definition gaussian_mixture_warning_key : warning_key :=
  (gaussian_mixture_warning, "UserWarning", 178).

(** The local variables of the model-selection loop; [best_gmm] is
    unbound until its first assignment. *)
Record bic_locals := BicLocals {
  lowest_bic : value;
  bic : list value;
  best_gmm : option loc;
}.

(** Body of the inner loop of the BIC selection routine. *)
Definition bic_step (X random_state : value) (cv_type : string)
    (vars : bic_locals) (n_components : Z) : M ext bic_locals :=
  gmm ← new GaussianMixture []
          [("n_components", VInt n_components);
           ("random_state", random_state);
           ("covariance_type", VStr cv_type)];
  _ ← call gmm "fit" [X] [];
  b ← call gmm "bic" [X] [];
  let bic' := bic vars ++ [b] in
  lower ← lift_result (py_lt b (lowest_bic vars));
  if (lower : bool)
  then mret (BicLocals b bic' (Some gmm))
  else mret (BicLocals (lowest_bic vars) bic' (best_gmm vars)).

Definition cv_types : list string := ["spherical"; "tied"; "diag"; "full"].

(** The selection routine of the [best_model] branch, up to the read of
    [best_gmm].  The array that the source builds from [bic] after the
    loops is not used and is left out. *)
Definition bic_selection (X max_clusters random_state : value) : M ext loc :=
  let lowest_bic := VFloat np_infty in
  let bic := [] in
  max ← lift_result (py_add_int max_clusters 1);
  n_components_range ← lift_result (py_range 1 max);
  vars ← for_each cv_types
           (fun vars cv_type =>
              for_each n_components_range
                (bic_step X random_state cv_type) vars)
           (BicLocals lowest_bic bic None);
  match best_gmm vars with
  | Some gmm => mret gmm
  | None => raise (UnboundLocalError "best_gmm")
  end.

(** The statements of gaussian_mixture that follow the warning. *)
Definition gaussian_mixture_fit
    (X n_clusters covariance_type best_model max_clusters random_state : value)
  : M ext value :=
  model ← (if is_True best_model
           then bic_selection X max_clusters random_state
           else new GaussianMixture []
                  [("n_components", n_clusters);
                   ("random_state", random_state);
                   ("covariance_type", covariance_type)]);
  _ ← call model "fit" [X] [];
  labels ← call model "predict" [X] [];
  setattr model "labels_" labels;;
  mret (VRef model).

Definition gaussian_mixture
    (X n_clusters covariance_type best_model max_clusters random_state : value)
    (kwargs : gmap string value) : M ext value :=
  (if is_None random_state then warn 178 gaussian_mixture_warning
   else mret tt);;
  gaussian_mixture_fit X n_clusters covariance_type best_model max_clusters
                       random_state.

Definition hdbscan (X min_cluster_size gen_min_span_tree : value)
    (kwargs : gmap string value) : M ext value :=
  model ← new HDBSCAN [] [("min_cluster_size", min_cluster_size)];
  _ ← call model "fit" [X] [];
  mret (VRef model).

(** *** Spatially explicit/encouraged methods *)

Definition ward_spatial (X w n_clusters : value) (kwargs : gmap string value)
  : M ext value :=
  connectivity ← value_getattr w "sparse";
  model ← new AgglomerativeClustering []
            [("n_clusters", n_clusters); ("connectivity", connectivity);
             ("linkage", VStr "ward")];
  _ ← call model "fit" [X] [];
  mret (VRef model).

Definition spenc (X w n_clusters gamma : value) (kwargs : gmap string value)
  : M ext value :=
  model ← new SPENC [] [("n_clusters", n_clusters); ("gamma", gamma)];
  sparse ← value_getattr w "sparse";
  _ ← call model "fit" [X; sparse] [];
  mret (VRef model).

Definition skater (X w n_clusters floor trace islands : value)
    (kwargs : gmap string value) : M ext value :=
  model ← new Spanning_Forest [] [];
  _ ← call model "fit" [n_clusters; w]
        [("data", X); ("quorum", floor); ("trace", trace)];
  current_labels ← getattr model "current_labels_";
  setattr model "labels_" current_labels;;
  mret (VRef model).

Definition azp (X w n_clusters : value) (kwargs : gmap string value)
  : M ext value :=
  model ← new AZP [] [];
  _ ← call model "fit_from_w" []
        [("attr", X); ("w", w); ("n_regions", n_clusters)];
  mret (VRef model).

Definition max_p (X w threshold_variable threshold : value)
    (kwargs : gmap string value) : M ext value :=
  model ← new MaxPRegionsHeu [] [];
  values ← value_getattr X "values";
  _ ← call model "fit_from_w" [w; values; threshold_variable; threshold] [];
  mret (VRef model).

End Cluster.

(** ** Signatures and argument binding *)

(** A [def] header: the named parameters in order, each with its default
    if it has one, and whether a [**kwargs] parameter follows. *)
Record signature := Signature {
  sig_params : list (string * option value);
  sig_var_kw : bool;
}.

Definition signature_of (f : entry) : signature :=
  match f with
  | def_ward =>
      Signature [("X", None); ("n_clusters", Some (VInt 5))] true
  | def_kmeans =>
      Signature [("X", None); ("n_clusters", Some (VInt 5));
                 ("seed", Some VNone)] true
  | def_affinity_propagation =>
      Signature [("X", None); ("damping", Some (VFloat (FFin (8 # 10))));
                 ("preference", Some (VInt (-1000)));
                 ("verbose", Some (VBool false));
                 ("max_iter", Some (VInt 500))] true
  | def_spectral =>
      Signature [("X", None); ("n_clusters", Some (VInt 5));
                 ("n_jobs", Some (VInt (-1)));
                 ("affinity", Some (VStr "rbf"))] true
  | def_gaussian_mixture =>
      Signature [("X", None); ("n_clusters", Some (VInt 5));
                 ("covariance_type", Some (VStr "full"));
                 ("best_model", Some (VBool false));
                 ("max_clusters", Some (VInt 10));
                 ("random_state", Some VNone)] true
  | def_hdbscan =>
      Signature [("X", None); ("min_cluster_size", Some (VInt 5));
                 ("gen_min_span_tree", Some (VBool true))] true
  | def_ward_spatial =>
      Signature [("X", None); ("w", None); ("n_clusters", Some (VInt 5))] true
  | def_spenc =>
      Signature [("X", None); ("w", None); ("n_clusters", Some (VInt 5));
                 ("gamma", Some (VInt 1))] true
  | def_skater =>
      Signature [("X", None); ("w", None); ("n_clusters", Some (VInt 5));
                 ("floor", Some (VFloat neg_np_inf));
                 ("trace", Some (VBool false));
                 ("islands", Some (VStr "increase"))] true
  | def_azp =>
      Signature [("X", None); ("w", None); ("n_clusters", Some (VInt 5))] true
  | def_max_p =>
      Signature [("X", None); ("w", None);
                 ("threshold_variable", Some (VStr "count"));
                 ("threshold", Some (VInt 10))] true
  end.

(** Python's binding of a call's positional arguments [args] and keyword
    arguments [kw] to named parameters: the values of the parameters in
    order, and the keywords that are left over.  Too many positional
    arguments, a parameter given twice, or a parameter without value and
    without default are a [TypeError]. *)
Fixpoint bind_params (params : list (string * option value))
    (args : list value) (kw : gmap string value)
    : result (list value * gmap string value) :=
  match params with
  | [] =>
      match args with
      | [] => Ok ([], kw)
      | _ :: _ => Raise TypeError
      end
  | (p, default) :: params' =>
      match args with
      | a :: args' =>
          match kw !! p with
          | Some _ => Raise TypeError
          | None =>
              match bind_params params' args' kw with
              | Ok (vs, rest) => Ok (a :: vs, rest)
              | Raise e => Raise e
              end
          end
      | [] =>
          match kw !! p, default with
          | Some v, _ | None, Some v =>
              match bind_params params' [] (delete p kw) with
              | Ok (vs, rest) => Ok (v :: vs, rest)
              | Raise e => Raise e
              end
          | None, None => Raise TypeError
          end
      end
  end.

(** The keywords that remain once the parameters have taken theirs. *)
Definition leftover (params : list (string * option value))
    (kw : gmap string value) : gmap string value :=
  fold_left (λ m pd, delete pd.1 m) params kw.

(** Binding against a whole signature: without [**kwargs], left-over
    keywords are a [TypeError]. *)
Definition bind_signature (sg : signature) (args : list value)
    (kw : gmap string value) : result (list value * gmap string value) :=
  match bind_params (sig_params sg) args kw with
  | Ok (vs, rest) =>
      if sig_var_kw sg then Ok (vs, rest)
      else if decide (rest = ∅) then Ok (vs, rest) else Raise TypeError
  | Raise e => Raise e
  end.

Section Module.
Context {ext : Type} {L : Library ext}.

(** The body of a function, applied to the values of its parameters. *)
Definition body_of (f : entry) (vs : list value) (kwargs : gmap string value)
  : M ext value :=
  match f, vs with
  | def_ward, [X; n_clusters] => ward X n_clusters kwargs
  | def_kmeans, [X; n_clusters; seed] => kmeans X n_clusters seed kwargs
  | def_affinity_propagation, [X; damping; preference; verbose; max_iter] =>
      affinity_propagation X damping preference verbose max_iter kwargs
  | def_spectral, [X; n_clusters; n_jobs; affinity] =>
      spectral X n_clusters n_jobs affinity kwargs
  | def_gaussian_mixture,
    [X; n_clusters; covariance_type; best_model; max_clusters; random_state] =>
      gaussian_mixture X n_clusters covariance_type best_model max_clusters
                       random_state kwargs
  | def_hdbscan, [X; min_cluster_size; gen_min_span_tree] =>
      hdbscan X min_cluster_size gen_min_span_tree kwargs
  | def_ward_spatial, [X; w; n_clusters] => ward_spatial X w n_clusters kwargs
  | def_spenc, [X; w; n_clusters; gamma] => spenc X w n_clusters gamma kwargs
  | def_skater, [X; w; n_clusters; floor; trace; islands] =>
      skater X w n_clusters floor trace islands kwargs
  | def_azp, [X; w; n_clusters] => azp X w n_clusters kwargs
  | def_max_p, [X; w; threshold_variable; threshold] =>
      max_p X w threshold_variable threshold kwargs
  | _, _ => raise TypeError
  end.

(** A call [f(args, kw)] of one of the module's functions. *)
Definition call_entry (f : entry) (args : list value)
    (kw : gmap string value) : M ext value :=
  match bind_signature (signature_of f) args kw with
  | Ok (vs, kwargs) => body_of f vs kwargs
  | Raise e => raise e
  end.

End Module.

(** The statements at the top level of the module, in source order: the
    imports, then the eleven [def]s. *)
Definition module_statements : list (string * binding) :=
  [ ("warn", Imported "warnings.warn");
    ("np", Imported "numpy");
    ("HDBSCAN", Imported "hdbscan.HDBSCAN");
    ("MaxPRegionsHeu", Imported "region.max_p_regions.heuristics.MaxPRegionsHeu");
    ("AZP", Imported "region.p_regions.azp.AZP");
    ("Spanning_Forest", Imported "region.skater.skater.Spanning_Forest");
    ("AffinityPropagation", Imported "sklearn.cluster.AffinityPropagation");
    ("AgglomerativeClustering", Imported "sklearn.cluster.AgglomerativeClustering");
    ("KMeans", Imported "sklearn.cluster.KMeans");
    ("SpectralClustering", Imported "sklearn.cluster.SpectralClustering");
    ("GaussianMixture", Imported "sklearn.mixture.GaussianMixture");
    ("SPENC", Imported "spenc.SPENC");
    ("ward", Function def_ward);
    ("kmeans", Function def_kmeans);
    ("affinity_propagation", Function def_affinity_propagation);
    ("spectral", Function def_spectral);
    ("gaussian_mixture", Function def_gaussian_mixture);
    ("hdbscan", Function def_hdbscan);
    ("ward_spatial", Function def_ward_spatial);
    ("spenc", Function def_spenc);
    ("skater", Function def_skater);
    ("azp", Function def_azp);
    ("max_p", Function def_max_p) ].

(** The namespace after the module has been executed: a later binding of
    a name replaces an earlier one. *)
Definition cluster_module : gmap string binding :=
  fold_left (fun m '(name, b) => <[name := b]> m) module_statements ∅.

(** Selecting a function of the module by its name. *)
Definition select (name : string) : option entry :=
  match cluster_module !! name with
  | Some (Function f) => Some f
  | _ => None
  end.

(** The state in which the module has just been imported. *)
Definition initial_state {ext} (e : ext) : state ext :=
  State (Globals cluster_module None) [] e [] [].

(** The library class an adapter instantiates and the fit routine it
    calls on the instance. *)
Definition class_of (f : entry) : class :=
  match f with
  | def_ward | def_ward_spatial => AgglomerativeClustering
  | def_kmeans => KMeans
  | def_affinity_propagation => AffinityPropagation
  | def_spectral => SpectralClustering
  | def_gaussian_mixture => GaussianMixture
  | def_hdbscan => HDBSCAN
  | def_spenc => SPENC
  | def_skater => Spanning_Forest
  | def_azp => AZP
  | def_max_p => MaxPRegionsHeu
  end.

Definition fit_routine (f : entry) : string :=
  match f with
  | def_azp | def_max_p => "fit_from_w"
  | _ => "fit"
  end.

(** ** A concrete library *)

(** A small deterministic stand-in for the libraries, on which the adapters
    can be run: constructors keep their keyword arguments as attributes;
    the fit routines store a label vector under the attribute the real
    class uses and count the fits in the library state; [bic] is lowest
    for three components. *)
Definition stub_labels : value := VArray [[0; 0; 1]].

Definition stub_new (c : class) (args : list value) (kw : kwlist) (e : nat)
  : outcome (gmap string value) * nat :=
  (Returns (list_to_map kw), e).

Definition stub_bic (attrs : gmap string value) : value :=
  match attrs !! "n_components" with
  | Some (VInt n) => VFloat (FFin (inject_Z ((n - 3) * (n - 3))))
  | _ => VFloat (FFin (inject_Z 0))
  end.

Definition stub_label_attr (c : class) : string :=
  match c with
  | Spanning_Forest => "current_labels_"
  | GaussianMixture => "converged_"
  | _ => "labels_"
  end.

Definition stub_method (c : class) (meth : string) (attrs : gmap string value)
    (args : list value) (kw : kwlist) (e : nat)
  : outcome value * gmap string value * nat :=
  if String.eqb meth "fit" || String.eqb meth "fit_from_w"
  then (Returns VNone, <[stub_label_attr c := stub_labels]> attrs, S e)
  else if String.eqb meth "bic" then (Returns (stub_bic attrs), attrs, e)
  else if String.eqb meth "predict" then (Returns stub_labels, attrs, e)
  else (Raises "AttributeError", attrs, e).

Definition stub_library : Library nat :=
  {| lib_new := stub_new; lib_method := stub_method |}.

(** Sample arguments: a 3 x 2 attribute table, as array and as data frame,
    and the weights of a path on three nodes. *)
Definition sample_X : value := VArray [[1; 2]; [3; 4]; [5; 6]].
Definition sample_frame : value := VFrame [[1; 2]; [3; 4]; [5; 6]].
Definition sample_w : value := VW [[0; 1; 0]; [1; 0; 1]; [0; 1; 0]].

(** A state in which an adapter has already run once. *)
Definition used_state : state nat :=
  (call_entry (L := stub_library) def_kmeans [sample_X] ∅ (initial_state 0%nat)).2.

(** Keywords that ask gaussian_mixture for the model selection over up
    to four components. *)
Definition select_best : gmap string value :=
  <["best_model" := VBool true]> (<["max_clusters" := VInt 4]> ∅).

(** ** Properties of runs *)



Section Properties.
Context {ext : Type} {L : Library ext}.

(** [wp m s Q]: running [m] from [s] ends in a result and a state that
    satisfy [Q]. *)
Definition wp {A} (m : M ext A) (s : state ext)
    (Q : result A → state ext → Prop) : Prop :=
  Q (m s).1 (m s).2.

(** How the attribute data [X] of a call reaches the arguments
    [margs], [mkw] of the fit routine. *)
Definition forwards (f : entry) (X : value) (margs : list value)
    (mkw : kwlist) : Prop :=
  match f with
  | def_skater => ("data", X) ∈ mkw
  | def_azp => ("attr", X) ∈ mkw
  | def_max_p =>
      ∃ values, margs !! 1%nat = Some values ∧
                ∀ a, X = VFrame a → values = VArray a
  | _ => margs !! 0%nat = Some X
  end.

(** Among the events [evs], an instance of the adapter's class is
    created at [l] and later its fit routine returns. *)
Definition constructed_and_fitted (f : entry) (X : value) (l : loc)
    (evs : list event) : Prop :=
  ∃ pre mid post cargs ckw margs mkw r,
    evs = pre ++ ENew (class_of f) cargs ckw (Returns l)
              :: mid ++ ECall l (fit_routine f) margs mkw (Returns r)
              :: post ∧
    forwards f X margs mkw.

(** Every instantiation among [evs] is of class [c]. *)
Definition only_class (c : class) (evs : list event) : Prop :=
  Forall (λ e, match e with
               | ENew c' _ _ _ => c' = c
               | ECall _ _ _ _ _ => True
               end) evs.

(** Where the attributes of the returned object [o] come from: set by
    the adapter after [predict] (gaussian_mixture), copied from
    [current_labels_] (skater), or exactly as the library's fit routine
    left them. *)
Definition labels_source (f : entry) (X : value) (l : loc) (o : object)
    (evs : list event) : Prop :=
  match f with
  | def_gaussian_mixture =>
      ∃ labels pre r,
        obj_attrs o !! "labels_" = Some labels ∧
        evs = pre ++ [ECall l "fit" [X] [] (Returns r);
                      ECall l "predict" [X] [] (Returns labels)]
  | def_skater =>
      ∃ labels,
        obj_attrs o !! "labels_" = Some labels ∧
        obj_attrs o !! "current_labels_" = Some labels
  | _ =>
      ∃ attrs args kw e r e',
        lib_method (class_of f) (fit_routine f) attrs args kw e
          = (Returns r, obj_attrs o, e')
  end.

(** What a returning run of adapter [f] on data [X] from [s] to [s']
    with value [v] has done. *)
Definition summary (f : entry) (X : value) (s : state ext) (v : value)
    (s' : state ext) : Prop :=
  ∃ l o evs,
    v = VRef l ∧
    st_heap s !! l = None ∧
    st_heap s' !! l = Some o ∧
    obj_class o = class_of f ∧
    st_trace s' = st_trace s ++ evs ∧
    constructed_and_fitted f X l evs ∧
    only_class (class_of f) evs ∧
    labels_source f X l o evs.

(** What the model-selection part of gaussian_mixture guarantees about
    the instance [gmm] it hands on, and the invariant of its loops. *)
Definition selected (s : state ext) (gmm : loc) (s' : state ext) : Prop :=
  (length (st_heap s) ≤ gmm)%nat ∧
  (∃ o, st_heap s' !! gmm = Some o ∧ obj_class o = GaussianMixture) ∧
  st_warnings s' = st_warnings s ∧
  ∃ evs, st_trace s' = st_trace s ++ evs ∧
         only_class GaussianMixture evs ∧
         ∃ pre post cargs ckw,
           evs = pre ++ ENew GaussianMixture cargs ckw (Returns gmm) :: post.

Definition bic_invariant (s0 : state ext) (vars : bic_locals)
    (s : state ext) : Prop :=
  (length (st_heap s0) ≤ length (st_heap s))%nat ∧
  st_warnings s = st_warnings s0 ∧
  ∃ evs, st_trace s = st_trace s0 ++ evs ∧
         only_class GaussianMixture evs ∧
         ∀ gmm, best_gmm vars = Some gmm →
           (length (st_heap s0) ≤ gmm)%nat ∧
           (∃ o, st_heap s !! gmm = Some o ∧ obj_class o = GaussianMixture) ∧
           ∃ pre post cargs ckw,
             evs = pre ++ ENew GaussianMixture cargs ckw (Returns gmm) :: post.

(** The library classes that document a [labels_] attribute set by
    their fit routine: all but GaussianMixture and Spanning_Forest. *)
Definition library_provides_labels : Prop :=
  ∀ f, f ≠ def_gaussian_mixture → f ≠ def_skater →
    ∀ attrs args kw e r attrs' e',
      lib_method (class_of f) (fit_routine f) attrs args kw e
        = (Returns r, attrs', e') →
      is_Some (attrs' !! "labels_").

(** Some call of a method named [fit] among [evs] has [X] itself among
    its positional or keyword arguments. *)
Definition forwards_X_to_fit (X : value) (evs : list event) : Prop :=
  ∃ l args kw r, ECall l "fit" args kw r ∈ evs ∧ (X ∈ args ∨ X ∈ kw.*2).

(** [s'] comes after [s] in a run that does not warn: the module and
    the warnings are as in [s] and the trace has only grown. *)
Definition advances (s s' : state ext) : Prop :=
  st_module s' = st_module s ∧
  st_warnings s' = st_warnings s ∧
  ∃ evs, st_trace s' = st_trace s ++ evs.

Definition steady {A} (m : M ext A) : Prop :=
  ∀ s, advances s (m s).2.

(** The BIC values the library computes are numbers below infinity. *)
Definition bic_below_infinity : Prop :=
  ∀ attrs args kw e r attrs' e',
    lib_method GaussianMixture "bic" attrs args kw e = (Returns r, attrs', e') →
    ∃ x, as_float r = Some x ∧ float_lt x np_infty = true.






(** The methods the module calls on model instances. *)
Definition called_methods : list string :=
  ["fit"; "fit_from_w"; "bic"; "predict"].

(** A library that cooperates: its constructors and the methods the
    module calls return, and the fit routine of Spanning_Forest leaves
    [current_labels_]. *)
Definition library_returns : Prop :=
  (∀ c args kw e, ∃ attrs e', lib_new c args kw e = (Returns attrs, e')) ∧
  (∀ c meth attrs args kw e,
     meth ∈ called_methods →
     ∃ r attrs' e', lib_method c meth attrs args kw e = (Returns r, attrs', e')) ∧
  (∀ attrs args kw e r attrs' e',
     lib_method Spanning_Forest "fit" attrs args kw e = (Returns r, attrs', e') →
     is_Some (attrs' !! "current_labels_")).

(** Parameter values an adapter can work with: as many as it has
    parameters, a W instance for [w] where [w.sparse] is read, a data
    frame for [X] where [X.values] is read, at least one cluster to try
    when the model selection is asked for. *)
Definition usable (f : entry) (vs : list value) : Prop :=
  match f, vs with
  | def_ward, [_; _]
  | def_kmeans, [_; _; _]
  | def_affinity_propagation, [_; _; _; _; _]
  | def_spectral, [_; _; _; _]
  | def_hdbscan, [_; _; _]
  | def_skater, [_; _; _; _; _; _]
  | def_azp, [_; _; _] => True
  | def_ward_spatial, [_; w; _]
  | def_spenc, [_; w; _; _] => ∃ m, w = VW m
  | def_max_p, [X; _; _; _] => ∃ a, X = VFrame a
  | def_gaussian_mixture, [_; _; _; best_model; max_clusters; _] =>
      is_True best_model = true → ∃ n, max_clusters = VInt n ∧ 1 ≤ n
  | _, _ => False
  end.

End Properties.

(** The adapters in the two groups of the source file, and the library
    class behind each algorithm name. *)
Definition aspatial_names : list string :=
  ["ward"; "kmeans"; "affinity_propagation"; "spectral"; "gaussian_mixture";
   "hdbscan"].

Definition spatial_names : list string :=
  ["ward_spatial"; "spenc"; "skater"; "azp"; "max_p"].

Definition algorithms : list (string * class) :=
  [ ("ward", AgglomerativeClustering);
    ("kmeans", KMeans);
    ("affinity_propagation", AffinityPropagation);
    ("spectral", SpectralClustering);
    ("gaussian_mixture", GaussianMixture);
    ("hdbscan", HDBSCAN);
    ("ward_spatial", AgglomerativeClustering);
    ("spenc", SPENC);
    ("skater", Spanning_Forest);
    ("azp", AZP);
    ("max_p", MaxPRegionsHeu) ].

(** The name under which a function is defined. *)
Definition entry_name (f : entry) : string :=
  match f with
  | def_ward => "ward"
  | def_kmeans => "kmeans"
  | def_affinity_propagation => "affinity_propagation"
  | def_spectral => "spectral"
  | def_gaussian_mixture => "gaussian_mixture"
  | def_hdbscan => "hdbscan"
  | def_ward_spatial => "ward_spatial"
  | def_spenc => "spenc"
  | def_skater => "skater"
  | def_azp => "azp"
  | def_max_p => "max_p"
  end.

(** An adapter is spatial when it has a parameter [w]. *)
Definition spatial (f : entry) : bool :=
  bool_decide ("w" ∈ (sig_params (signature_of f)).*1).

(** ** Further properties of runs *)

(** An event of a call that returned, and one of a call that raised. *)
Definition returned (e : event) : Prop :=
  match e with
  | ENew _ _ _ (Returns _) | ECall _ _ _ _ (Returns _) => True
  | _ => False
  end.

Definition raised (e : event) (msg : string) : Prop :=
  match e with
  | ENew _ _ _ (Raises m) | ECall _ _ _ _ (Raises m) => m = msg
  | _ => False
  end.

(** The events of a run and its result fit together: every call into the
    library returned, or the last one raised, every one before it
    returned, and what it raised is the result. *)
Definition orderly {A} (r : result A) (evs : list event) : Prop :=
  Forall returned evs ∨
  ∃ pre e msg, evs = pre ++ [e] ∧ Forall returned pre ∧ raised e msg ∧
               r = Raise (LibraryError msg).


(** An event on an instance at location [n] or beyond. *)
Definition beyond (n : nat) (e : event) : Prop :=
  match e with
  | ENew _ _ _ (Returns l) | ECall l _ _ _ _ => (n ≤ l)%nat
  | ENew _ _ _ (Raises _) => True
  end.

(** The calls of constructors among the events, with their arguments. *)
Definition constructions (evs : list event)
  : list (class * list value * kwlist) :=
  omap (λ e, match e with
             | ENew c args kw _ => Some (c, args, kw)
             | ECall _ _ _ _ _ => None
             end) evs.

(** The pairs the two loops of the model selection run through, in
    their order, for [n_components_range = range(1, max_clusters + 1)]. *)
Definition candidates (max_clusters : Z) : list (string * Z) :=
  cv_type ← cv_types;
  (λ n_components, (cv_type, n_components)) <$> seqZ 1 max_clusters.

(** The constructor call of the loop body for one pair. *)
Definition candidate_model (random_state : value) (c : string * Z)
  : class * list value * kwlist :=
  (GaussianMixture, [],
   [("n_components", VInt c.2); ("random_state", random_state);
    ("covariance_type", VStr c.1)]).

(** A call that leaves a parameter without value: more positional
    arguments than parameters, or a parameter without default that
    neither a positional argument nor a keyword provides. *)
Definition badly_called (f : entry) (args : list value)
    (kw : gmap string value) : Prop :=
  (length (sig_params (signature_of f)) < length args)%nat ∨
  ∃ i p, sig_params (signature_of f) !! i = Some (p, None) ∧
         (length args ≤ i)%nat ∧ kw !! p = None.

Section MoreProperties.
Context {ext : Type} {L : Library ext}.

(** A program that stops at the first exception of the library. *)
Definition propagates {A} (m : M ext A) : Prop :=
  ∀ s, ∃ evs, st_trace (m s).2 = st_trace s ++ evs ∧ orderly (m s).1 evs.

(** A program that leaves the first [n] objects of the heap alone: it
    does not change them, it calls no method on them, and its value
    satisfies [P]. *)
Definition confined {A} (n : nat) (m : M ext A) (P : A → Prop) : Prop :=
  ∀ s, (n ≤ length (st_heap s))%nat →
       take n (st_heap (m s).2) = take n (st_heap s) ∧
       (n ≤ length (st_heap (m s).2))%nat ∧
       (∃ evs, st_trace (m s).2 = st_trace s ++ evs ∧ Forall (beyond n) evs) ∧
       ∀ a, (m s).1 = Ok a → P a.

(** [emits m Q]: from any state, a run of [m] adds events to the trace
    that satisfy [Q] together with the result. *)
Definition emits {A} (m : M ext A) (Q : result A → list event → Prop)
  : Prop :=
  ∀ s, ∃ evs, st_trace (m s).2 = st_trace s ++ evs ∧ Q (m s).1 evs.

(** What the loops of the model selection have logged when the pairs
    [seen] are done: one constructor call per pair; no computed BIC is
    below [lowest_bic]; the instance bound to [best_gmm] was fitted and
    its BIC, computed right after, is [lowest_bic]. *)
Definition selection_log (X random_state : value) (seen : list (string * Z))
    (vars : bic_locals) (evs : list event) : Prop :=
  constructions evs = candidate_model random_state <$> seen ∧
  is_Some (as_float (lowest_bic vars)) ∧
  (∀ l args kw b, ECall l "bic" args kw (Returns b) ∈ evs →
     py_lt b (lowest_bic vars) = Ok false) ∧
  (∀ gmm, best_gmm vars = Some gmm →
     ∃ pre post r,
       evs = pre ++ ECall gmm "fit" [X] [] (Returns r)
                 :: ECall gmm "bic" [X] [] (Returns (lowest_bic vars))
                 :: post).

(** A value on which reading attribute [name] raises AttributeError,
    whatever the state: a value that is no object with that attribute. *)
Definition lacks (v : value) (name : string) : Prop :=
  ∀ s : state ext, value_getattr v name s = (Raise (AttributeError name), s).

End MoreProperties.

(** * Reasoning about the adapters *)

(** ** Heaps *)

Lemma lookup_fresh (h : list object) (o : object) :
  (h ++ [o]) !! length h = Some o.
Proof. by apply list_lookup_middle. Qed.

Lemma insert_fresh (h : list object) (o o' : object) :
  <[length h := o']> (h ++ [o]) = h ++ [o'].
Proof.
  replace (length h) with (length h + 0)%nat by lia.
  by rewrite insert_app_r.
Qed.

Lemma lookup_length_None (h : list object) : h !! length h = None.
Proof. by apply lookup_ge_None_2. Qed.

Lemma lookup_insert_same (h : list object) (l : loc) (o o' : object) :
  h !! l = Some o → <[l := o']> h !! l = Some o'.
Proof. intros H. apply list_lookup_insert_eq. by eapply lookup_lt_Some. Qed.

(** ** Weakest preconditions for the monad *)

Section Logic.
Context {ext : Type} {L : Library ext}.

Lemma wp_run {A} (m : M ext A) s Q r s' :
  wp m s Q → m s = (r, s') → Q r s'.
Proof. unfold wp. intros HQ Hrun. by rewrite Hrun in HQ. Qed.

Lemma wp_ext {A} (m m' : M ext A) s (Q : result A → state ext → Prop) :
  m s = m' s → wp m' s Q → wp m s Q.
Proof. unfold wp. by intros ->. Qed.

Lemma wp_mono {A} (m : M ext A) s (Q Q' : result A → state ext → Prop) :
  wp m s Q → (∀ r s', Q r s' → Q' r s') → wp m s Q'.
Proof. unfold wp. auto. Qed.

Lemma wp_ret {A} (a : A) s (Q : result A → state ext → Prop) :
  Q (Ok a) s → wp (mret a) s Q.
Proof. done. Qed.

Lemma wp_raise {A} (e : exn) s (Q : result A → state ext → Prop) :
  Q (Raise e) s → wp (raise e) s Q.
Proof. done. Qed.

Lemma wp_lift_result {A} (r : result A) s (Q : result A → state ext → Prop) :
  Q r s → wp (lift_result r) s Q.
Proof. done. Qed.

Lemma wp_bind {A B} (m : M ext A) (k : A → M ext B) s
    (Q : result B → state ext → Prop) :
  wp m s (λ r s', match r with
                  | Ok a => wp (k a) s' Q
                  | Raise e => Q (Raise e) s'
                  end) →
  wp (m ≫= k) s Q.
Proof.
  unfold wp, mbind, M_mbind, M_bind.
  by destruct (m s) as [[a|e] s'].
Qed.

Lemma wp_new c args kw s (Q : result loc → state ext → Prop) :
  (∀ attrs e', lib_new c args kw (st_ext s) = (Returns attrs, e') →
     Q (Ok (length (st_heap s)))
       (State (st_module s) (st_heap s ++ [Object c attrs]) e'
              (st_trace s ++ [ENew c args kw (Returns (length (st_heap s)))])
              (st_warnings s))) →
  (∀ msg e', lib_new c args kw (st_ext s) = (Raises msg, e') →
     Q (Raise (LibraryError msg))
       (State (st_module s) (st_heap s) e'
              (st_trace s ++ [ENew c args kw (Raises msg)]) (st_warnings s))) →
  wp (new c args kw) s Q.
Proof.
  unfold wp, new. intros Hok Herr.
  destruct (lib_new c args kw (st_ext s)) as [[attrs|msg] e']; simpl; auto.
Qed.

Lemma wp_call l meth args kw s o (Q : result value → state ext → Prop) :
  st_heap s !! l = Some o →
  (∀ res attrs' e',
     lib_method (obj_class o) meth (obj_attrs o) args kw (st_ext s)
       = (res, attrs', e') →
     Q (outcome_result res)
       (State (st_module s) (<[l := Object (obj_class o) attrs']> (st_heap s)) e'
              (st_trace s ++ [ECall l meth args kw res]) (st_warnings s))) →
  wp (call l meth args kw) s Q.
Proof.
  unfold wp, call. intros -> HQ.
  destruct (lib_method _ _ _ _ _ _) as [[res attrs'] e']; simpl; auto.
Qed.

Lemma wp_getattr l name s o (Q : result value → state ext → Prop) :
  st_heap s !! l = Some o →
  (∀ v, obj_attrs o !! name = Some v → Q (Ok v) s) →
  (obj_attrs o !! name = None → Q (Raise (AttributeError name)) s) →
  wp (getattr l name) s Q.
Proof.
  unfold wp, getattr. intros -> Hsome Hnone.
  destruct (obj_attrs o !! name); simpl; auto.
Qed.

Lemma wp_setattr l name v s o (Q : result unit → state ext → Prop) :
  st_heap s !! l = Some o →
  Q (Ok tt)
    (State (st_module s)
           (<[l := Object (obj_class o) (<[name := v]> (obj_attrs o))]> (st_heap s))
           (st_ext s) (st_trace s) (st_warnings s)) →
  wp (setattr l name v) s Q.
Proof. unfold wp, setattr. by intros ->. Qed.

Lemma wp_warn lineno msg s (Q : result unit → state ext → Prop) :
  Q (Ok tt)
    (State (register (msg, "UserWarning", lineno) (st_module s))
           (st_heap s) (st_ext s) (st_trace s) (st_warnings s ++ [msg])) →
  wp (warn lineno msg) s Q.
Proof. done. Qed.

(** The loop rule: an invariant [I] on the loop variables and the
    state. *)
Lemma wp_for_each {A B} (I : B → state ext → Prop) (xs : list A)
    (body : B → A → M ext B) acc s (Q : result B → state ext → Prop) :
  I acc s →
  (∀ x acc s, x ∈ xs → I acc s →
     wp (body acc x) s (λ r s', match r with
                                | Ok acc' => I acc' s'
                                | Raise e => Q (Raise e) s'
                                end)) →
  (∀ acc s, I acc s → Q (Ok acc) s) →
  wp (for_each xs body acc) s Q.
Proof.
  intros HI Hbody Hend. revert acc s HI.
  induction xs as [|x xs IH]; intros acc s HI; simpl.
  - apply wp_ret. auto.
  - apply wp_bind. eapply wp_mono.
    + apply Hbody; [left|done].
    + intros [acc'|e] s' Hr; [|done].
      apply IH; [|done].
      intros y acc0 s0 Hy. apply Hbody. by right.
Qed.

Lemma wp_call_any l meth args kw s (Q : result value → state ext → Prop) :
  (∀ o res attrs' e',
     st_heap s !! l = Some o →
     lib_method (obj_class o) meth (obj_attrs o) args kw (st_ext s)
       = (res, attrs', e') →
     Q (outcome_result res)
       (State (st_module s) (<[l := Object (obj_class o) attrs']> (st_heap s)) e'
              (st_trace s ++ [ECall l meth args kw res]) (st_warnings s))) →
  Q (Raise (InvalidReference l)) s →
  wp (call l meth args kw) s Q.
Proof.
  intros Hok Herr. destruct (st_heap s !! l) as [o|] eqn:Ho.
  - eapply wp_call; [done|]. intros. by eapply Hok.
  - unfold wp, call. by rewrite Ho.
Qed.

Lemma wp_setattr_any l name v s (Q : result unit → state ext → Prop) :
  (∀ o, st_heap s !! l = Some o →
     Q (Ok tt)
       (State (st_module s)
              (<[l := Object (obj_class o) (<[name := v]> (obj_attrs o))]> (st_heap s))
              (st_ext s) (st_trace s) (st_warnings s))) →
  Q (Raise (InvalidReference l)) s →
  wp (setattr l name v) s Q.
Proof.
  intros Hok Herr. destruct (st_heap s !! l) as [o|] eqn:Ho.
  - eapply wp_setattr; [done|]. by eapply Hok.
  - unfold wp, setattr. by rewrite Ho.
Qed.

(** *** Runs that only extend the trace *)

Lemma advances_refl (s : state ext) : advances s s.
Proof. split_and!; [done..|]. exists []. by rewrite app_nil_r. Qed.

Lemma advances_trans (s1 s2 s3 : state ext) :
  advances s1 s2 → advances s2 s3 → advances s1 s3.
Proof.
  intros (Hm1 & Hw1 & evs1 & Ht1) (Hm2 & Hw2 & evs2 & Ht2).
  split_and!; [congruence..|].
  exists (evs1 ++ evs2). by rewrite Ht2, Ht1, app_assoc.
Qed.

Lemma advances_step (s : state ext) h e ev :
  advances s (State (st_module s) h e (st_trace s ++ [ev]) (st_warnings s)).
Proof. split_and!; [done..|]. by eexists. Qed.

Lemma steady_wp {A} (m : M ext A) s (Q : result A → state ext → Prop) :
  steady m → (∀ r s', advances s s' → Q r s') → wp m s Q.
Proof. intros Hm HQ. apply HQ, Hm. Qed.

Lemma steady_ret {A} (a : A) : steady (mret a : M ext A).
Proof. intros s. apply advances_refl. Qed.

Lemma steady_raise {A} e : steady (raise e : M ext A).
Proof. intros s. apply advances_refl. Qed.

Lemma steady_lift_result {A} (r : result A) : steady (lift_result r : M ext A).
Proof. intros s. apply advances_refl. Qed.

Lemma steady_bind {A B} (m : M ext A) (k : A → M ext B) :
  steady m → (∀ a, steady (k a)) → steady (m ≫= k).
Proof.
  intros Hm Hk s. specialize (Hm s).
  unfold mbind, M_mbind, M_bind.
  destruct (m s) as [[a|e] s']; [|done].
  eapply advances_trans; [exact Hm|apply Hk].
Qed.

Lemma steady_new c args kw : steady (new c args kw).
Proof.
  intros s. unfold new.
  destruct (lib_new c args kw (st_ext s)) as [[attrs|msg] e'];
    apply advances_step.
Qed.

Lemma steady_call l meth args kw : steady (call l meth args kw).
Proof.
  intros s. unfold call.
  destruct (st_heap s !! l) as [o|]; [|apply advances_refl].
  destruct (lib_method _ _ _ _ _ _) as [[res attrs'] e'].
  apply advances_step.
Qed.

Lemma steady_getattr l name : steady (getattr l name : M ext value).
Proof.
  intros s. unfold getattr.
  destruct (st_heap s !! l) as [o|]; [|apply advances_refl].
  destruct (obj_attrs o !! name); apply advances_refl.
Qed.

Lemma steady_setattr l name v : steady (setattr l name v : M ext unit).
Proof.
  intros s. unfold setattr.
  destruct (st_heap s !! l) as [o|]; [|apply advances_refl].
  split_and!; [done..|]. exists []. by rewrite app_nil_r.
Qed.

Lemma steady_value_getattr v name :
  steady (value_getattr v name : M ext value).
Proof.
  destruct v; simpl; try apply steady_raise.
  - destruct (String.eqb name "values"); [apply steady_ret|apply steady_raise].
  - destruct (String.eqb name "sparse"); [apply steady_ret|apply steady_raise].
  - apply steady_getattr.
Qed.

Lemma steady_for_each {A B} (xs : list A) (body : B → A → M ext B) acc :
  (∀ acc x, steady (body acc x)) → steady (for_each xs body acc).
Proof.
  intros Hbody. revert acc.
  induction xs as [|x xs IH]; intros acc; simpl.
  - apply steady_ret.
  - apply steady_bind; auto.
Qed.

End Logic.

(** Proving that a program built from these operations is steady. *)
Ltac solve_steady :=
  repeat first
    [ apply steady_ret
    | apply steady_raise
    | apply steady_lift_result
    | apply steady_new
    | apply steady_call
    | apply steady_getattr
    | apply steady_setattr
    | apply steady_value_getattr
    | apply steady_bind; [|intros ?]
    | apply steady_for_each; intros ? ?
    | match goal with
      | |- steady (if ?b then _ else _) => destruct b
      | |- steady (match ?x with _ => _ end) => destruct x
      end ].

(** ** The adapters one by one *)

(** Attribute access on an argument leaves the state as it is. *)
Lemma wp_value_getattr {ext} (w : value) name (s : state ext)
    (Q : result value → state ext → Prop) :
  (∀ v, (∀ a, w = VFrame a → name = "values" → v = VArray a) → Q (Ok v) s) →
  (∀ e, Q (Raise e) s) →
  wp (value_getattr w name) s Q.
Proof.
  intros Hok Herr. unfold wp.
  destruct w; simpl; try apply Herr.
  - destruct (String.eqb name "values") eqn:E; simpl; [|apply Herr].
    apply Hok. by intros ? [= ->] _.
  - destruct (String.eqb name "sparse"); simpl; [|apply Herr].
    apply Hok. by intros.
  - unfold getattr. destruct (st_heap s !! l) as [o|]; simpl; [|apply Herr].
    destruct (obj_attrs o !! name); simpl; [|apply Herr].
    apply Hok. by intros.
Qed.

(** Closing a summary once the run has been stepped through: the object
    sits at the first free location and the events are listed. *)
Ltac summary_intro :=
  eexists _, _, _; split_and!; simpl;
  [ reflexivity
  | apply lookup_length_None
  | first [ apply lookup_fresh
          | eapply lookup_insert_same; apply lookup_fresh ]
  | reflexivity
  | by rewrite <- ?app_assoc
  | | | ].

Ltac events_here pre :=
  exists pre, [], []; do 5 eexists; split; [reflexivity|simpl].

Ltac step_new :=
  apply wp_bind, wp_new; [intros ?attrs ?e ?Hnew|by intros].

Ltac step_call :=
  apply wp_bind; eapply wp_call; [apply lookup_fresh|];
  intros [?r|?msg] ?attrs ?e ?Hfit; simpl; [|by intros];
  rewrite ?insert_fresh.

Ltac step_value_getattr :=
  apply wp_bind, wp_value_getattr; [intros ?v ?Hv|by intros].

Ltac step_ret :=
  apply wp_ret; intros ? [= <-].

(** The adapters that create, fit and return. *)
Ltac plain_adapter :=
  step_new; step_call; step_ret;
  match goal with H : lib_method _ _ _ _ _ _ = _ |- _ => simpl in H end;
  summary_intro;
  [ by events_here (@nil event) | by repeat constructor | eauto 10 ].

Section Summaries.
Context {ext : Type} {L : Library ext}.

Lemma ward_summary X n_clusters kwargs s :
  wp (ward X n_clusters kwargs) s
     (λ r s', ∀ v, r = Ok v → summary def_ward X s v s').
Proof. unfold ward. plain_adapter. Qed.

Lemma kmeans_summary X n_clusters seed kwargs s :
  wp (kmeans X n_clusters seed kwargs) s
     (λ r s', ∀ v, r = Ok v → summary def_kmeans X s v s').
Proof. unfold kmeans. plain_adapter. Qed.

Lemma affinity_propagation_summary X damping preference verbose max_iter
    kwargs s :
  wp (affinity_propagation X damping preference verbose max_iter kwargs) s
     (λ r s', ∀ v, r = Ok v → summary def_affinity_propagation X s v s').
Proof. unfold affinity_propagation. plain_adapter. Qed.

Lemma spectral_summary X n_clusters n_jobs affinity kwargs s :
  wp (spectral X n_clusters n_jobs affinity kwargs) s
     (λ r s', ∀ v, r = Ok v → summary def_spectral X s v s').
Proof. unfold spectral. plain_adapter. Qed.

Lemma hdbscan_summary X min_cluster_size gen_min_span_tree kwargs s :
  wp (hdbscan X min_cluster_size gen_min_span_tree kwargs) s
     (λ r s', ∀ v, r = Ok v → summary def_hdbscan X s v s').
Proof. unfold hdbscan. plain_adapter. Qed.

Lemma ward_spatial_summary X w n_clusters kwargs s :
  wp (ward_spatial X w n_clusters kwargs) s
     (λ r s', ∀ v, r = Ok v → summary def_ward_spatial X s v s').
Proof. unfold ward_spatial. step_value_getattr. plain_adapter. Qed.

Lemma spenc_summary X w n_clusters gamma kwargs s :
  wp (spenc X w n_clusters gamma kwargs) s
     (λ r s', ∀ v, r = Ok v → summary def_spenc X s v s').
Proof.
  unfold spenc. step_new. step_value_getattr. step_call. step_ret.
  simpl in Hfit. summary_intro.
  - by events_here (@nil event).
  - by repeat constructor.
  - eauto 10.
Qed.

Lemma azp_summary X w n_clusters kwargs s :
  wp (azp X w n_clusters kwargs) s
     (λ r s', ∀ v, r = Ok v → summary def_azp X s v s').
Proof.
  unfold azp. step_new. step_call. step_ret.
  simpl in Hfit. summary_intro.
  - events_here (@nil event). set_solver.
  - by repeat constructor.
  - eauto 10.
Qed.

Lemma max_p_summary X w threshold_variable threshold kwargs s :
  wp (max_p X w threshold_variable threshold kwargs) s
     (λ r s', ∀ v, r = Ok v → summary def_max_p X s v s').
Proof.
  unfold max_p. step_new. step_value_getattr. step_call. step_ret.
  simpl in Hfit. summary_intro.
  - events_here (@nil event). eauto.
  - by repeat constructor.
  - eauto 10.
Qed.

Lemma skater_summary X w n_clusters floor trace islands kwargs s :
  wp (skater X w n_clusters floor trace islands kwargs) s
     (λ r s', ∀ v, r = Ok v → summary def_skater X s v s').
Proof.
  unfold skater. step_new. step_call.
  apply wp_bind. eapply wp_getattr; [apply lookup_fresh| |by intros].
  simpl. intros labels Hlabels.
  apply wp_bind. eapply wp_setattr; [apply lookup_fresh|].
  simpl. rewrite insert_fresh. step_ret.
  summary_intro.
  - events_here (@nil event). set_solver.
  - by repeat constructor.
  - exists labels. simpl. split; [apply lookup_insert_eq|].
    by rewrite lookup_insert_ne.
Qed.

Lemma summary_frame f X (s1 s : state ext) v s' :
  st_heap s1 = st_heap s → st_trace s1 = st_trace s →
  summary f X s1 v s' → summary f X s v s'.
Proof. unfold summary. by intros -> ->. Qed.

Lemma bic_step_invariant X random_state cv_type s0 vars n_components s :
  bic_invariant s0 vars s →
  wp (bic_step X random_state cv_type vars n_components) s
     (λ r s', match r with
              | Ok vars' => bic_invariant s0 vars' s'
              | Raise _ => True
              end).
Proof.
  intros (Hlen & Hwarn & evs & Htrace & Hclass & Hbest).
  unfold bic_step.
  apply wp_bind, wp_new; [intros attrs e1 Hnew|done].
  apply wp_bind. eapply wp_call; [apply lookup_fresh|].
  intros [r|msg] attrs1 e2 Hfit; simpl; [|done]. rewrite insert_fresh.
  apply wp_bind. eapply wp_call; [apply lookup_fresh|].
  intros [b|msg] attrs2 e3 Hbic; simpl; [|done]. rewrite insert_fresh.
  apply wp_bind, wp_lift_result.
  destruct (py_lt b (lowest_bic vars)) as [lower|]; [|done].
  assert (Hclass' : only_class GaussianMixture
            (evs ++ [ENew GaussianMixture []
                       [("n_components", VInt n_components);
                        ("random_state", random_state);
                        ("covariance_type", VStr cv_type)]
                       (Returns (length (st_heap s)));
                     ECall (length (st_heap s)) "fit" [X] [] (Returns r);
                     ECall (length (st_heap s)) "bic" [X] [] (Returns b)])).
  { apply Forall_app. split; [done|]. by repeat constructor. }
  destruct lower; apply wp_ret.
  - split_and!; simpl; [rewrite length_app; lia|done|].
    eexists. split_and!; [by rewrite Htrace, <- !app_assoc|exact Hclass'|].
    intros gmm [= <-]. split_and!; [done|by rewrite lookup_fresh; eauto|].
    by eexists evs, _, _, _.
  - split_and!; simpl; [rewrite length_app; lia|done|].
    eexists. split_and!; [by rewrite Htrace, <- !app_assoc|exact Hclass'|].
    intros gmm Hgmm.
    destruct (Hbest gmm Hgmm) as (? & (o & Ho & ?) & pre & post & ca & ck & ->).
    split_and!; [done| |].
    + exists o. split; [|done]. by apply lookup_app_l_Some.
    + eexists pre, _, ca, ck. by rewrite <- app_assoc.
Qed.

Lemma bic_selection_selected X max_clusters random_state s :
  wp (bic_selection X max_clusters random_state) s
     (λ r s', ∀ gmm, r = Ok gmm → selected s gmm s').
Proof.
  unfold bic_selection.
  apply wp_bind, wp_lift_result.
  destruct (py_add_int max_clusters 1) as [max|]; [|by intros].
  apply wp_bind, wp_lift_result.
  destruct (py_range 1 max) as [n_components_range|]; [|by intros].
  apply wp_bind.
  apply (wp_for_each (bic_invariant s)).
  - split_and!; [done..|]. exists []. split_and!; [by rewrite app_nil_r|constructor|done].
  - intros cv_type vars s1 _ Hinv.
    apply (wp_for_each (bic_invariant s)); [done| |done].
    intros n vars' s2 _ Hinv'. eapply wp_mono.
    + by apply bic_step_invariant.
    + by intros [?|?] ?.
  - intros vars s' (Hlen & Hwarn & evs & Htrace & Hclass & Hbest).
    destruct (best_gmm vars) as [gmm|]; [|by apply wp_raise].
    apply wp_ret. intros ? [= <-].
    destruct (Hbest gmm eq_refl) as (? & ? & ?).
    split_and!; eauto.
Qed.

Lemma gaussian_mixture_summary X n_clusters covariance_type best_model
    max_clusters random_state kwargs s :
  wp (gaussian_mixture X n_clusters covariance_type best_model max_clusters
                       random_state kwargs) s
     (λ r s', ∀ v, r = Ok v → summary def_gaussian_mixture X s v s').
Proof.
  unfold gaussian_mixture. apply wp_bind.
  set (s1 := if is_None random_state
             then State (register (gaussian_mixture_warning, "UserWarning",
                                   178) (st_module s))
                        (st_heap s) (st_ext s) (st_trace s)
                        (st_warnings s ++ [gaussian_mixture_warning])
             else s).
  assert (Hwarned : wp (if is_None random_state
                        then warn 178 gaussian_mixture_warning else mret tt) s
                       (λ r s', r = Ok tt ∧ s' = s1)).
  { subst s1. by destruct (is_None random_state). }
  eapply wp_mono; [exact Hwarned|]. intros ? ? [-> ->].
  assert (Hheap : st_heap s1 = st_heap s)
    by (subst s1; by destruct (is_None random_state)).
  assert (Htrace : st_trace s1 = st_trace s)
    by (subst s1; by destruct (is_None random_state)).
  eapply wp_mono;
    [|intros r s' Hr v Hv;
      exact (summary_frame _ _ _ _ _ _ Hheap Htrace (Hr v Hv))].
  clearbody s1. clear Hwarned Hheap Htrace s.
  unfold gaussian_mixture_fit. apply wp_bind.
  eapply (wp_mono _ _ (λ r s', ∀ gmm, r = Ok gmm → selected s1 gmm s')).
  { destruct (is_True best_model); [apply bic_selection_selected|].
    apply wp_new; [intros attrs e1 Hnew|by intros].
    intros gmm [= <-]. split_and!; simpl; [done|rewrite lookup_fresh; eauto|done|].
    eexists. split_and!; [done|by repeat constructor|].
    by eexists [], [], _, _. }
  intros [model|] s2 Hsel; [|by intros].
  destruct (Hsel model eq_refl)
    as (Hfresh & (o & Ho & Hcls) & _ & evs & Htrace & Hclass & pre & post & ca & ck & ->).
  apply wp_bind. eapply wp_call; [exact Ho|].
  intros [r|msg] attrs1 e2 Hfit; simpl; [|by intros].
  apply wp_bind. eapply wp_call; [by eapply lookup_insert_same|].
  intros [labels|msg] attrs2 e3 Hpredict; simpl; [|by intros].
  apply wp_bind. eapply wp_setattr.
  { simpl. eapply lookup_insert_same, lookup_insert_same, Ho. }
  simpl. step_ret.
  eexists model, _, _. split_and!; simpl.
  - done.
  - by apply lookup_ge_None_2.
  - eapply lookup_insert_same, lookup_insert_same, lookup_insert_same, Ho.
  - done.
  - by rewrite Htrace, <- !app_assoc.
  - exists pre, post. eexists _, ca, ck, _, _, _.
    by split.
  - unfold only_class. rewrite app_assoc.
    apply Forall_app. split; [done|]. by repeat constructor.
  - exists labels, (pre ++ ENew GaussianMixture ca ck (Returns model) :: post), r.
    split; [apply lookup_insert_eq|]. by rewrite <- app_assoc.
Qed.

End Summaries.

(** ** Every adapter *)

Lemma bind_params_length params args kw vs rest :
  bind_params params args kw = Ok (vs, rest) → length vs = length params.
Proof.
  revert args kw vs rest.
  induction params as [|[p d] params IH]; intros args kw vs rest; simpl.
  - destruct args; [|done]. by intros [= <- _].
  - destruct args as [|a args].
    + destruct (kw !! p) as [v|], d as [v'|]; try done;
        (destruct (bind_params params [] (delete p kw)) as [[vs' rest']|] eqn:E;
         [|done]; intros [= <- _]; simpl; f_equal; eauto).
    + destruct (kw !! p); [done|].
      destruct (bind_params params args kw) as [[vs' rest']|] eqn:E; [|done].
      intros [= <- _]. simpl. f_equal. eauto.
Qed.



(** Keywords that differ in the value of one name bind alike, up to the
    value of the parameter of that name. *)
Lemma bind_params_agree params args (kw1 kw2 : gmap string value) p0 :
  (∀ k, k ≠ p0 → kw1 !! k = kw2 !! k) →
  (is_Some (kw1 !! p0) ↔ is_Some (kw2 !! p0)) →
  match bind_params params args kw1, bind_params params args kw2 with
  | Ok (vs1, _), Ok (vs2, _) =>
      ∀ i p d, params !! i = Some (p, d) → p ≠ p0 → vs1 !! i = vs2 !! i
  | Raise e1, Raise e2 => e1 = e2
  | _, _ => False
  end.
Proof.
  revert args kw1 kw2.
  induction params as [|[p d] params IH]; intros args kw1 kw2 Hagree Hp0; simpl.
  - destruct args; [|done]. by intros i p d Hi.
  - destruct args as [|a args].
    + assert (Hdel : ∀ k, k ≠ p0 → delete p kw1 !! k = delete p kw2 !! k).
      { intros k Hk. rewrite !lookup_delete. case_decide; auto. }
      assert (Hdel0 : is_Some (delete p kw1 !! p0) ↔ is_Some (delete p kw2 !! p0)).
      { rewrite !lookup_delete. case_decide; [done|]. done. }
      specialize (IH [] _ _ Hdel Hdel0).
      destruct (decide (p = p0)) as [->|Hne].
      * destruct (kw1 !! p0) as [v1|] eqn:E1, (kw2 !! p0) as [v2|] eqn:E2.
        -- destruct (bind_params params [] (delete p0 kw1)) as [[vs1 r1]|],
             (bind_params params [] (delete p0 kw2)) as [[vs2 r2]|]; try done.
           intros [|i] q d' Hi Hq; simpl in *; [by injection Hi as -> _|eauto].
        -- destruct Hp0 as [Hp0 _]. by destruct Hp0.
        -- destruct Hp0 as [_ Hp0]. by destruct Hp0.
        -- destruct d as [v|]; [|done].
           destruct (bind_params params [] (delete p0 kw1)) as [[vs1 r1]|],
             (bind_params params [] (delete p0 kw2)) as [[vs2 r2]|]; try done.
           intros [|i] q d' Hi Hq; simpl in *; [done|eauto].
      * rewrite <- (Hagree p Hne).
        destruct (kw1 !! p) as [v|], d as [v'|]; try done;
          (destruct (bind_params params [] (delete p kw1)) as [[vs1 r1]|],
             (bind_params params [] (delete p kw2)) as [[vs2 r2]|]; try done;
           intros [|i] q d' Hi Hq; simpl in *; [done|eauto]).
    + specialize (IH args _ _ Hagree Hp0).
      destruct (decide (p = p0)) as [->|Hne].
      * destruct (kw1 !! p0) as [v1|] eqn:E1, (kw2 !! p0) as [v2|] eqn:E2;
          try done.
        -- destruct Hp0 as [Hp0 _]. by destruct Hp0.
        -- destruct Hp0 as [_ Hp0]. by destruct Hp0.
        -- destruct (bind_params params args kw1) as [[vs1 r1]|],
             (bind_params params args kw2) as [[vs2 r2]|]; try done.
           intros [|i] q d' Hi Hq; simpl in *; [done|eauto].
      * rewrite <- (Hagree p Hne). destruct (kw1 !! p); [done|].
        destruct (bind_params params args kw1) as [[vs1 r1]|],
          (bind_params params args kw2) as [[vs2 r2]|]; try done.
        intros [|i] q d' Hi Hq; simpl in *; [done|eauto].
Qed.

Section Every.
Context {ext : Type} {L : Library ext}.

Lemma body_of_summary f X ps kwargs s :
  wp (body_of f (X :: ps) kwargs) s
     (λ r s', ∀ v, r = Ok v → summary f X s v s').
Proof.
  destruct f; simpl;
    do 6 (try (destruct ps as [|? ps]; [try by intros|]));
    try (by intros);
    eauto using ward_summary, kmeans_summary, affinity_propagation_summary,
      spectral_summary, gaussian_mixture_summary, hdbscan_summary,
      ward_spatial_summary, spenc_summary, skater_summary, azp_summary,
      max_p_summary.
Qed.

(** A call that gets past argument binding runs the body on the bound
    values, the first of which is [X]. *)
Lemma call_entry_body f args kw s r s' :
  call_entry f args kw s = (r, s') →
  (∃ e, bind_signature (signature_of f) args kw = Raise e ∧
        r = Raise e ∧ s' = s) ∨
  (∃ X ps kwargs,
      bind_signature (signature_of f) args kw = Ok (X :: ps, kwargs) ∧
      body_of f (X :: ps) kwargs s = (r, s')).
Proof.
  unfold call_entry.
  destruct (bind_signature (signature_of f) args kw) as [[vs kwargs]|e] eqn:E.
  - intros Hrun. right.
    assert (length vs = length (sig_params (signature_of f))) as Hlen.
    { unfold bind_signature in E.
      destruct (bind_params _ _ _) as [[vs' rest]|] eqn:E'; [|done].
      apply bind_params_length in E'.
      destruct (sig_var_kw _); [by inversion E; subst|].
      destruct (decide _); by inversion E; subst. }
    destruct vs as [|X ps]; [by destruct f|]. eauto.
  - intros [= <- <-]. left. eauto.
Qed.

Lemma call_entry_keyword_agree f p0 args (kw : gmap string value) v v' s :
  sig_var_kw (signature_of f) = true →
  (∀ vs vs' kwargs kwargs',
     length vs = length (sig_params (signature_of f)) →
     length vs' = length (sig_params (signature_of f)) →
     (∀ i p d, sig_params (signature_of f) !! i = Some (p, d) → p ≠ p0 →
               vs !! i = vs' !! i) →
     body_of f vs kwargs s = body_of f vs' kwargs' s) →
  call_entry f args (<[p0 := v]> kw) s = call_entry f args (<[p0 := v']> kw) s.
Proof.
  intros Hvar Hbody. unfold call_entry, bind_signature. rewrite Hvar.
  pose proof (bind_params_agree (sig_params (signature_of f)) args
                (<[p0 := v]> kw) (<[p0 := v']> kw) p0) as Hagree.
  destruct (bind_params _ args (<[p0 := v]> kw)) as [[vs1 r1]|e1] eqn:E1,
    (bind_params _ args (<[p0 := v']> kw)) as [[vs2 r2]|e2] eqn:E2.
  - apply Hbody; [by eapply bind_params_length..|].
    apply Hagree.
    + intros k Hk. by rewrite !lookup_insert_ne.
    + by rewrite !lookup_insert_eq.
  - destruct Hagree.
    + intros k Hk. by rewrite !lookup_insert_ne.
    + by rewrite !lookup_insert_eq.
  - destruct Hagree.
    + intros k Hk. by rewrite !lookup_insert_ne.
    + by rewrite !lookup_insert_eq.
  - rewrite Hagree; [done| |].
    + intros k Hk. by rewrite !lookup_insert_ne.
    + by rewrite !lookup_insert_eq.
Qed.

End Every.

(** A call that differs from another in one keyword only, when the body
    does not use the parameter of that name. *)
Ltac ignored_keyword :=
  intros; apply call_entry_keyword_agree; [done|];
  let Hl := fresh "Hl" in
  let Hl' := fresh "Hl" in
  let Hvs := fresh "Hvs" in
  intros ?vs ?vs' ?kwargs ?kwargs' Hl Hl' Hvs; simpl in Hl, Hl';
  repeat match goal with
         | H : length ?l = _ |- _ =>
             destruct l; simpl in H; [try discriminate H|];
             try (injection H as H)
         end;
  try discriminate;
  pose proof (Hvs 0%nat _ _ eq_refl);
  pose proof (Hvs 1%nat _ _ eq_refl);
  pose proof (Hvs 2%nat _ _ eq_refl);
  try pose proof (Hvs 3%nat _ _ eq_refl);
  try pose proof (Hvs 4%nat _ _ eq_refl);
  try pose proof (Hvs 5%nat _ _ eq_refl);
  simpl in *;
  repeat match goal with
         | H : ?p ≠ ?q → Some _ = Some _ |- _ =>
             first [ assert (p ≠ q) as Hne by done;
                     injection (H Hne) as ->; clear Hne
                   | clear H ]
         end;
  done.

(** * The claims *)

Section Claims.
Context {ext : Type} {L : Library ext}.

(** C3, as amended.  Every adapter passes the attribute data on to the
    fit routine of its library: the nine adapters other than azp and
    max_p call [fit], with [X] as first positional argument, skater with
    [data=X]; azp calls [fit_from_w] with [attr=X]; max_p calls
    [fit_from_w] with [X.values] as second positional argument.  [X] is
    the value bound to the first parameter. *)
Theorem adapter_forwards_data f args kw s v s' :
  call_entry f args kw s = (Ok v, s') →
  ∃ X ps kwargs l evs margs mkw r,
    bind_signature (signature_of f) args kw = Ok (X :: ps, kwargs) ∧
    v = VRef l ∧
    st_trace s' = st_trace s ++ evs ∧
    ECall l (fit_routine f) margs mkw (Returns r) ∈ evs ∧
    forwards f X margs mkw.
Proof.
  intros Hrun.
  apply call_entry_body in Hrun
    as [(e & _ & [=] & _)|(X & ps & kwargs & Hbind & Hrun)].
  pose proof (wp_run _ _ _ _ _ (body_of_summary f X ps kwargs s) Hrun v eq_refl)
    as (l & o & evs & -> & _ & _ & _ & Htrace & Hfit & _).
  destruct Hfit as (pre & mid & post & cargs & ckw & margs & mkw & r & -> & Hfw).
  eexists X, ps, kwargs, l, _, margs, mkw, r. split_and!; [done..| |done].
  apply elem_of_app. right. right. apply elem_of_app. right. by left.
Qed.

(** C8.  [max_iter] of affinity_propagation, [gen_min_span_tree] of
    hdbscan and [islands] of skater are accepted and never used: runs
    that differ only in that argument, given by position or by keyword,
    end in the same result and the same state, with the same calls into
    the library in its trace. *)
Theorem unused_parameters_are_ignored :
  (∀ X damping preference verbose max_iter max_iter' kwargs s,
     affinity_propagation X damping preference verbose max_iter kwargs s
     = affinity_propagation X damping preference verbose max_iter' kwargs s) ∧
  (∀ X min_cluster_size gen_min_span_tree gen_min_span_tree' kwargs s,
     hdbscan X min_cluster_size gen_min_span_tree kwargs s
     = hdbscan X min_cluster_size gen_min_span_tree' kwargs s) ∧
  (∀ X w n_clusters floor trace islands islands' kwargs s,
     skater X w n_clusters floor trace islands kwargs s
     = skater X w n_clusters floor trace islands' kwargs s) ∧
  (∀ args kw v v' s,
     call_entry def_affinity_propagation args (<["max_iter" := v]> kw) s
     = call_entry def_affinity_propagation args (<["max_iter" := v']> kw) s) ∧
  (∀ args kw v v' s,
     call_entry def_hdbscan args (<["gen_min_span_tree" := v]> kw) s
     = call_entry def_hdbscan args (<["gen_min_span_tree" := v']> kw) s) ∧
  (∀ args kw v v' s,
     call_entry def_skater args (<["islands" := v]> kw) s
     = call_entry def_skater args (<["islands" := v']> kw) s).
Proof. split_and!; [done..| | |]; ignored_keyword. Qed.

Lemma gaussian_mixture_unfold X n_clusters covariance_type best_model
    max_clusters random_state kwargs s :
  gaussian_mixture X n_clusters covariance_type best_model max_clusters
                   random_state kwargs s
  = gaussian_mixture_fit X n_clusters covariance_type best_model
      max_clusters random_state
      (State (if is_None random_state
              then register gaussian_mixture_warning_key (st_module s)
              else st_module s)
             (st_heap s) (st_ext s) (st_trace s)
             (st_warnings s ++
              if is_None random_state then [gaussian_mixture_warning] else [])).
Proof.
  unfold gaussian_mixture, mbind, M_mbind, M_bind.
  destruct (is_None random_state); simpl; [done|].
  rewrite app_nil_r. by destruct s.
Qed.

Lemma wp_gaussian_mixture X n_clusters covariance_type best_model
    max_clusters random_state kwargs s (Q : result value → state ext → Prop) :
  wp (gaussian_mixture_fit X n_clusters covariance_type best_model
        max_clusters random_state)
     (State (if is_None random_state
             then register gaussian_mixture_warning_key (st_module s)
             else st_module s)
            (st_heap s) (st_ext s) (st_trace s)
            (st_warnings s ++
             if is_None random_state then [gaussian_mixture_warning] else []))
     Q →
  wp (gaussian_mixture X n_clusters covariance_type best_model max_clusters
                       random_state kwargs) s Q.
Proof. unfold wp. by rewrite gaussian_mixture_unfold. Qed.

Lemma gaussian_mixture_fit_steady X n_clusters covariance_type best_model
    max_clusters random_state :
  steady (gaussian_mixture_fit X n_clusters covariance_type best_model
                               max_clusters random_state).
Proof.
  unfold gaussian_mixture_fit, bic_selection, bic_step. solve_steady.
Qed.

(** C10.  gaussian_mixture passes its message to [warn] exactly when
    [random_state] is [None], and does nothing else on that account:
    the run is that of the statements after the warning, started in the
    state with the message added, and the warning entered in the
    registry of the module, if it was emitted; no other warning is
    emitted. *)
Theorem warning_iff_random_state_is_None X n_clusters covariance_type
    best_model max_clusters random_state kwargs s :
  ∃ emitted,
    st_warnings
      (gaussian_mixture X n_clusters covariance_type best_model max_clusters
                        random_state kwargs s).2
      = st_warnings s ++ emitted ∧
    (emitted = [gaussian_mixture_warning] ↔ random_state = VNone) ∧
    (emitted = [] ↔ random_state ≠ VNone) ∧
    gaussian_mixture X n_clusters covariance_type best_model max_clusters
                     random_state kwargs s
    = gaussian_mixture_fit X n_clusters covariance_type best_model
        max_clusters random_state
        (State (if is_None random_state
                then register gaussian_mixture_warning_key (st_module s)
                else st_module s)
               (st_heap s) (st_ext s) (st_trace s)
               (st_warnings s ++ emitted)).
Proof.
  exists (if is_None random_state then [gaussian_mixture_warning] else []).
  pose proof (gaussian_mixture_unfold X n_clusters covariance_type best_model
                max_clusters random_state kwargs s) as Hrun.
  split_and!.
  - rewrite Hrun.
    by destruct (gaussian_mixture_fit_steady X n_clusters covariance_type
                   best_model max_clusters random_state
                   (State (if is_None random_state
                           then register gaussian_mixture_warning_key
                                  (st_module s)
                           else st_module s)
                      (st_heap s) (st_ext s) (st_trace s)
                      (st_warnings s ++
                       if is_None random_state
                       then [gaussian_mixture_warning] else [])))
      as (_ & -> & _).
  - by destruct random_state.
  - by destruct random_state.
  - exact Hrun.
Qed.

(** *** The model-selection loop binds [best_gmm] *)

Lemma advances_bind_left {A B} (m : M ext A) (k : A → M ext B) s :
  (∀ a, steady (k a)) → advances (m s).2 ((m ≫= k) s).2.
Proof.
  intros Hk. unfold mbind, M_mbind, M_bind.
  destruct (m s) as [[a|e] s']; [apply Hk|apply advances_refl].
Qed.

Lemma bic_step_binds X random_state cv_type vars n_components s :
  bic_below_infinity →
  lowest_bic vars = VFloat np_infty ∨ is_Some (best_gmm vars) →
  wp (bic_step X random_state cv_type vars n_components) s
     (λ r s', match r with
              | Ok vars' => is_Some (best_gmm vars')
              | Raise e => e ≠ UnboundLocalError "best_gmm"
              end).
Proof.
  intros Hbic Hvars. unfold bic_step.
  apply wp_bind, wp_new; [intros attrs e1 Hnew|done].
  apply wp_bind. eapply wp_call; [apply lookup_fresh|].
  intros [r|msg] attrs1 e2 Hfit; simpl; [|done]. rewrite insert_fresh.
  apply wp_bind. eapply wp_call; [apply lookup_fresh|].
  intros [b|msg] attrs2 e3 Hb; simpl; [|done].
  apply Hbic in Hb as (x & Hx & Hlt).
  apply wp_bind, wp_lift_result.
  destruct Hvars as [Hinf|Hsome].
  - rewrite Hinf. unfold py_lt. rewrite Hx. simpl. rewrite Hlt.
    by apply wp_ret.
  - unfold py_lt. rewrite Hx.
    destruct (as_float (lowest_bic vars)) as [y|]; [|done].
    simpl. destruct (float_lt x y); by apply wp_ret.
Qed.

Lemma bic_loops_bind X random_state n ns cv cvs s :
  bic_below_infinity →
  wp (for_each (cv :: cvs)
        (λ vars cv_type,
           for_each (n :: ns) (bic_step X random_state cv_type) vars)
        (BicLocals (VFloat np_infty) [] None)) s
     (λ r s', match r with
              | Ok vars => is_Some (best_gmm vars)
              | Raise e => e ≠ UnboundLocalError "best_gmm"
              end).
Proof.
  intros Hbic.
  assert (Hinner : ∀ cv_type vars s,
            lowest_bic vars = VFloat np_infty ∨ is_Some (best_gmm vars) →
            wp (for_each (n :: ns) (bic_step X random_state cv_type) vars) s
               (λ r s', match r with
                        | Ok vars' => is_Some (best_gmm vars')
                        | Raise e => e ≠ UnboundLocalError "best_gmm"
                        end)).
  { intros cv_type vars s0 Hvars. simpl. apply wp_bind.
    eapply wp_mono; [by apply bic_step_binds|].
    intros [vars'|e] s1 Hr; [|done].
    apply (wp_for_each (λ vars _, is_Some (best_gmm vars))); [done| |done].
    intros x vars2 s2 _ H2. apply bic_step_binds; auto. }
  simpl. apply wp_bind.
  eapply wp_mono; [apply Hinner; by left|].
  intros [vars|e] s1 Hr; [|done].
  apply (wp_for_each (λ vars _, is_Some (best_gmm vars))); [done| |done].
  intros x vars2 s2 _ H2. apply Hinner. by right.
Qed.

Lemma bic_selection_range X max_clusters random_state s :
  bic_selection X (VInt max_clusters) random_state s
  = (vars ← for_each cv_types
              (λ vars cv_type,
                 for_each (seqZ 1 max_clusters)
                   (bic_step X random_state cv_type) vars)
              (BicLocals (VFloat np_infty) [] None);
     match best_gmm vars with
     | Some gmm => mret gmm
     | None => raise (UnboundLocalError "best_gmm")
     end) s.
Proof.
  unfold bic_selection, py_add_int, py_range, lift_result.
  unfold mbind at 1 2, M_mbind, M_bind.
  by replace (max_clusters + 1 - 1) with max_clusters by lia.
Qed.

Lemma first_iteration_runs X n_clusters covariance_type max_clusters
    random_state s :
  1 ≤ max_clusters →
  ∃ res rest,
    st_trace (gaussian_mixture_fit X n_clusters covariance_type (VBool true)
                (VInt max_clusters) random_state s).2
    = st_trace s
        ++ ENew GaussianMixture []
             [("n_components", VInt 1); ("random_state", random_state);
              ("covariance_type", VStr "spherical")] res
        :: rest.
Proof.
  intros Hmax.
  assert (advances
            (new GaussianMixture []
               [("n_components", VInt 1); ("random_state", random_state);
                ("covariance_type", VStr "spherical")] s).2
            (gaussian_mixture_fit X n_clusters covariance_type (VBool true)
               (VInt max_clusters) random_state s).2) as (_ & _ & evs & Hevs).
  { unfold gaussian_mixture_fit. simpl is_True. cbn iota.
    eapply advances_trans; [|apply advances_bind_left; intros; solve_steady].
    rewrite bic_selection_range, seqZ_cons by lia.
    eapply advances_trans; [|apply advances_bind_left; intros; solve_steady].
    unfold cv_types. cbn [for_each].
    eapply advances_trans;
      [|apply advances_bind_left; intros; unfold bic_step; solve_steady].
    eapply advances_trans;
      [|apply advances_bind_left; intros; unfold bic_step; solve_steady].
    unfold bic_step.
    eapply advances_trans; [|apply advances_bind_left; intros; solve_steady].
    apply advances_refl. }
  rewrite Hevs. unfold new.
  destruct (lib_new _ _ _ _) as [[attrs|msg] e']; simpl;
    rewrite <- app_assoc; eauto.
Qed.

Lemma selection_binds_best_gmm X n_clusters covariance_type max_clusters
    random_state s :
  1 ≤ max_clusters →
  bic_below_infinity →
  wp (gaussian_mixture_fit X n_clusters covariance_type (VBool true)
        (VInt max_clusters) random_state) s
     (λ r _, r ≠ Raise (UnboundLocalError "best_gmm")).
Proof.
  intros Hmax Hbic. unfold gaussian_mixture_fit. simpl is_True. cbn iota.
  apply wp_bind. eapply wp_ext; [apply bic_selection_range|].
  rewrite seqZ_cons by lia.
  apply wp_bind. eapply wp_mono; [by apply bic_loops_bind|].
  intros [vars|e] s1 Hvars; [|congruence].
  destruct Hvars as [gmm ->]. apply wp_ret.
  apply wp_bind, wp_call_any; [|done].
  intros o [r|msg] attrs1 e1 _ _; simpl; [|done].
  apply wp_bind, wp_call_any; [|done].
  intros o' [labels|msg] attrs2 e2 _ _; simpl; [|done].
  apply wp_bind, wp_setattr_any; [|done].
  intros o'' _. by apply wp_ret.
Qed.

Lemma selection_without_iterations X n_clusters covariance_type max_clusters
    random_state s :
  max_clusters < 1 →
  gaussian_mixture_fit X n_clusters covariance_type (VBool true)
    (VInt max_clusters) random_state s
  = (Raise (UnboundLocalError "best_gmm"), s).
Proof.
  intros Hmax. unfold gaussian_mixture_fit. simpl is_True. cbn iota.
  unfold mbind at 1, M_mbind, M_bind.
  by rewrite bic_selection_range, seqZ_nil by lia.
Qed.

(** C9.  With [best_model=True] and [max_clusters >= 1] the selection
    loop runs: the first call into the library is the construction of
    the one-component spherical mixture.  The BIC of a fitted model
    being a number below infinity, the first iteration that completes
    binds [best_gmm], and the run never fails on reading it.  With
    [max_clusters < 1] no iteration runs, nothing is constructed and
    reading [best_gmm] raises UnboundLocalError. *)
Theorem best_gmm_bound_iff_loop_runs X n_clusters covariance_type
    max_clusters random_state kwargs s :
  let run := gaussian_mixture X n_clusters covariance_type (VBool true)
               (VInt max_clusters) random_state kwargs s in
  (1 ≤ max_clusters →
     (∃ res rest,
        st_trace run.2
        = st_trace s
            ++ ENew GaussianMixture []
                 [("n_components", VInt 1); ("random_state", random_state);
                  ("covariance_type", VStr "spherical")] res
            :: rest) ∧
     (bic_below_infinity →
        (∀ s1 vars s1',
           bic_step X random_state "spherical"
             (BicLocals (VFloat np_infty) [] None) 1 s1 = (Ok vars, s1') →
           is_Some (best_gmm vars)) ∧
        run.1 ≠ Raise (UnboundLocalError "best_gmm"))) ∧
  (max_clusters < 1 →
     run.1 = Raise (UnboundLocalError "best_gmm") ∧
     st_trace run.2 = st_trace s).
Proof.
  intros run. subst run. rewrite gaussian_mixture_unfold.
  set (sw := State _ _ _ _ _). change (st_trace s) with (st_trace sw).
  split.
  - intros Hmax. split; [|intros Hbic; split].
    + by apply first_iteration_runs.
    + intros s1 vars s1' Hstep.
      assert (Hinit : lowest_bic (BicLocals (VFloat np_infty) [] None)
                      = VFloat np_infty
                      ∨ is_Some (best_gmm (BicLocals (VFloat np_infty) [] None)))
        by by left.
      exact (wp_run _ _ _ _ _ (bic_step_binds X random_state "spherical"
               _ 1 s1 Hbic Hinit) Hstep).
    + by apply selection_binds_best_gmm.
  - intros Hmax. by rewrite selection_without_iterations.
Qed.

End Claims.

(** ** The adapters return *)

Section Totality.
Context {ext : Type} {L : Library ext}.
Hypothesis Hlib : library_returns.

Lemma wp_new_returns c args kw s (Q : result loc → state ext → Prop) :
  (∀ attrs e',
     Q (Ok (length (st_heap s)))
       (State (st_module s) (st_heap s ++ [Object c attrs]) e'
              (st_trace s ++ [ENew c args kw (Returns (length (st_heap s)))])
              (st_warnings s))) →
  wp (new c args kw) s Q.
Proof.
  intros HQ. apply wp_new; [by intros|].
  intros msg e' Hnew.
  destruct (proj1 Hlib c args kw (st_ext s)) as (attrs & e'' & Hret).
  congruence.
Qed.

Lemma wp_call_returns l meth args kw s o (Q : result value → state ext → Prop) :
  meth ∈ called_methods →
  st_heap s !! l = Some o →
  (∀ r attrs' e',
     lib_method (obj_class o) meth (obj_attrs o) args kw (st_ext s)
       = (Returns r, attrs', e') →
     Q (Ok r)
       (State (st_module s) (<[l := Object (obj_class o) attrs']> (st_heap s)) e'
              (st_trace s ++ [ECall l meth args kw (Returns r)]) (st_warnings s))) →
  wp (call l meth args kw) s Q.
Proof.
  intros Hmeth Ho HQ. eapply wp_call; [done|].
  intros [r|msg] attrs' e' Hcall; simpl; [by apply HQ|].
  destruct (proj1 (proj2 Hlib) (obj_class o) meth (obj_attrs o) args kw
              (st_ext s) Hmeth)
    as (r & attrs'' & e'' & Hret).
  congruence.
Qed.

Lemma bic_step_returns X random_state cv_type vars n_components s :
  bic_below_infinity →
  lowest_bic vars = VFloat np_infty ∨
    (is_Some (as_float (lowest_bic vars)) ∧
     ∃ gmm, best_gmm vars = Some gmm ∧ is_Some (st_heap s !! gmm)) →
  wp (bic_step X random_state cv_type vars n_components) s
     (λ r s', ∃ vars' gmm,
        r = Ok vars' ∧ is_Some (as_float (lowest_bic vars')) ∧
        best_gmm vars' = Some gmm ∧ is_Some (st_heap s' !! gmm)).
Proof.
  intros Hbic Hvars. unfold bic_step.
  apply wp_bind, wp_new_returns. intros attrs e1.
  apply wp_bind. eapply wp_call_returns; [compute_done|apply lookup_fresh|].
  intros r attrs1 e2 Hfit. cbn [st_heap]. rewrite insert_fresh.
  apply wp_bind. eapply wp_call_returns; [compute_done|apply lookup_fresh|].
  intros b attrs2 e3 Hb. cbn [st_heap]. rewrite insert_fresh.
  apply Hbic in Hb as (x & Hx & Hlt).
  apply wp_bind, wp_lift_result. unfold py_lt. rewrite Hx.
  destruct Hvars as [Hinf|([y Hy] & gmm & Hgmm & Ho)].
  - rewrite Hinf. simpl. rewrite Hlt. apply wp_ret.
    eexists _, _. split_and!; [done|simpl; by rewrite Hx|done|].
    simpl. by rewrite lookup_fresh.
  - rewrite Hy. simpl. destruct (float_lt x y); apply wp_ret.
    + eexists _, _. split_and!; [done|simpl; by rewrite Hx|done|].
      simpl. by rewrite lookup_fresh.
    + eexists _, gmm. split_and!; [done|simpl; by rewrite Hy|done|].
      simpl. destruct Ho as [o Ho]. exists o. by apply lookup_app_l_Some.
Qed.

Lemma bic_selection_returns X max_clusters random_state s :
  bic_below_infinity →
  1 ≤ max_clusters →
  wp (bic_selection X (VInt max_clusters) random_state) s
     (λ r s', ∃ gmm, r = Ok gmm ∧ is_Some (st_heap s' !! gmm)).
Proof.
  intros Hbic Hmax.
  eapply wp_ext; [apply bic_selection_range|].
  rewrite seqZ_cons by lia.
  set (J := λ (vars : bic_locals) (s : state ext),
         is_Some (as_float (lowest_bic vars)) ∧
         ∃ gmm, best_gmm vars = Some gmm ∧ is_Some (st_heap s !! gmm)).
  assert (Hinner : ∀ cv_type ns vars s,
            J vars s →
            wp (for_each ns (bic_step X random_state cv_type) vars) s
               (λ r s', ∃ vars', r = Ok vars' ∧ J vars' s')).
  { intros cv_type ns vars s0 HJ.
    apply (wp_for_each J); [done| |by eauto].
    intros n vars1 s1 _ HJ1. eapply wp_mono.
    - apply bic_step_returns; [done|]. by right.
    - intros r s2 (vars2 & gmm & -> & ? & ? & ?). split; eauto. }
  assert (Hfirst : ∀ cv_type n ns s,
            wp (for_each (n :: ns) (bic_step X random_state cv_type)
                  (BicLocals (VFloat np_infty) [] None)) s
               (λ r s', ∃ vars', r = Ok vars' ∧ J vars' s')).
  { intros cv_type n ns s0. simpl. apply wp_bind. eapply wp_mono.
    - apply bic_step_returns; [done|]. by left.
    - intros r s1 (vars1 & gmm & -> & ? & ? & ?).
      apply Hinner. split; eauto. }
  unfold cv_types. apply wp_bind.
  change (for_each ("spherical" :: ["tied"; "diag"; "full"]) ?body ?acc)
    with (acc' ← body acc "spherical"; for_each ["tied"; "diag"; "full"] body acc').
  apply wp_bind. eapply wp_mono; [apply Hfirst|].
  intros r s1 (vars1 & -> & HJ1).
  eapply wp_mono.
  { apply (wp_for_each J) with
      (Q := λ r s', ∃ vars', r = Ok vars' ∧ J vars' s'); [done| |by eauto].
    intros cv vars2 s2 _ HJ2. eapply wp_mono; [by apply Hinner|].
    by intros r2 s3 (vars3 & -> & HJ3). }
  intros r2 s2 (vars2 & -> & _ & gmm & Hgmm & Ho).
  rewrite Hgmm. apply wp_ret. eauto.
Qed.

(** On a cooperating library, every adapter returns a model when it is
    given parameter values it can work with. *)
Lemma body_of_returns f vs kwargs s :
  bic_below_infinity →
  usable f vs →
  ∃ l s', body_of f vs kwargs s = (Ok (VRef l), s').
Proof.
  intros Hbic Husable.
  enough (wp (body_of f vs kwargs) s (λ r _, ∃ l, r = Ok (VRef l))) as Hwp.
  { unfold wp in Hwp. destruct (body_of f vs kwargs s) as [r s'].
    simpl in Hwp. destruct Hwp as [l ->]. eauto. }
  destruct f; simpl in *;
    do 7 (try (destruct vs as [|? vs]; [try done|])); try done.
  - unfold ward. apply wp_bind, wp_new_returns. intros attrs e1.
    apply wp_bind. eapply wp_call_returns; [compute_done|apply lookup_fresh|].
    intros r attrs1 e2 _. apply wp_ret. eauto.
  - unfold kmeans. apply wp_bind, wp_new_returns. intros attrs e1.
    apply wp_bind. eapply wp_call_returns; [compute_done|apply lookup_fresh|].
    intros r attrs1 e2 _. apply wp_ret. eauto.
  - unfold affinity_propagation. apply wp_bind, wp_new_returns. intros attrs e1.
    apply wp_bind. eapply wp_call_returns; [compute_done|apply lookup_fresh|].
    intros r attrs1 e2 _. apply wp_ret. eauto.
  - unfold spectral. apply wp_bind, wp_new_returns. intros attrs e1.
    apply wp_bind. eapply wp_call_returns; [compute_done|apply lookup_fresh|].
    intros r attrs1 e2 _. apply wp_ret. eauto.
  - apply wp_gaussian_mixture.
    unfold gaussian_mixture_fit. apply wp_bind.
    eapply (wp_mono _ _ (λ r s', ∃ gmm, r = Ok gmm ∧ is_Some (st_heap s' !! gmm))).
    { destruct (is_True v2) eqn:Hbest.
      - destruct (Husable eq_refl) as (n & -> & Hn).
        by apply bic_selection_returns.
      - apply wp_new_returns. intros attrs e1. eexists. split; [done|].
        simpl. by rewrite lookup_fresh. }
    intros r s1 (gmm & -> & [o Ho]).
    apply wp_bind. eapply wp_call_returns; [compute_done|done|].
    intros r attrs1 e2 _.
    apply wp_bind. eapply wp_call_returns; [compute_done|by eapply lookup_insert_same|].
    intros labels attrs2 e3 _.
    apply wp_bind. eapply wp_setattr.
    { simpl. eapply lookup_insert_same, lookup_insert_same, Ho. }
    apply wp_ret. eauto.
  - unfold hdbscan. apply wp_bind, wp_new_returns. intros attrs e1.
    apply wp_bind. eapply wp_call_returns; [compute_done|apply lookup_fresh|].
    intros r attrs1 e2 _. apply wp_ret. eauto.
  - destruct Husable as [m ->]. unfold ward_spatial. simpl.
    apply wp_bind, wp_ret.
    apply wp_bind, wp_new_returns. intros attrs e1.
    apply wp_bind. eapply wp_call_returns; [compute_done|apply lookup_fresh|].
    intros r attrs1 e2 _. apply wp_ret. eauto.
  - destruct Husable as [m ->]. unfold spenc. simpl.
    apply wp_bind, wp_new_returns. intros attrs e1.
    apply wp_bind, wp_ret.
    apply wp_bind. eapply wp_call_returns; [compute_done|apply lookup_fresh|].
    intros r attrs1 e2 _. apply wp_ret. eauto.
  - unfold skater. apply wp_bind, wp_new_returns. intros attrs e1.
    apply wp_bind. eapply wp_call_returns; [compute_done|apply lookup_fresh|].
    intros r attrs1 e2 Hfit. simpl in *. rewrite insert_fresh.
    apply (proj2 (proj2 Hlib)) in Hfit as [labels Hlabels].
    apply wp_bind.
    eapply wp_getattr; [apply lookup_fresh| |simpl; by rewrite Hlabels].
    intros labels' _.
    apply wp_bind. eapply wp_setattr; [apply lookup_fresh|].
    apply wp_ret. eauto.
  - unfold azp. apply wp_bind, wp_new_returns. intros attrs e1.
    apply wp_bind. eapply wp_call_returns; [compute_done|apply lookup_fresh|].
    intros r attrs1 e2 _. apply wp_ret. eauto.
  - destruct Husable as [a ->]. unfold max_p. simpl.
    apply wp_bind, wp_new_returns. intros attrs e1.
    apply wp_bind, wp_ret.
    apply wp_bind. eapply wp_call_returns; [compute_done|apply lookup_fresh|].
    intros r attrs1 e2 _. apply wp_ret. eauto.
Qed.

End Totality.

(** C1.  Every adapter constructs a model object of its external library,
    delegates to that library's fit routine and returns that same
    object.  Whenever a call of adapter [f] returns, the value is a
    reference to a location [l] that held nothing before the call, the
    events of the call contain the creation of an instance of the
    adapter's class at [l] followed by a returning call of the fit
    routine on [l], and the object at [l] is of that class.  And the call
    does return, with a reference, when the library cooperates and the
    bound parameter values are usable. *)
Theorem adapter_returns_library_model {ext} {L : Library ext} f args kw
    (s : state ext) :
  (∀ v s',
     call_entry f args kw s = (Ok v, s') →
     ∃ l o evs pre mid post cargs ckw margs mkw r,
       v = VRef l ∧
       st_heap s !! l = None ∧
       st_heap s' !! l = Some o ∧
       obj_class o = class_of f ∧
       st_trace s' = st_trace s ++ evs ∧
       evs = pre ++ ENew (class_of f) cargs ckw (Returns l)
                 :: mid ++ ECall l (fit_routine f) margs mkw (Returns r)
                 :: post) ∧
  (library_returns → bic_below_infinity →
   ∀ vs kwargs,
     bind_signature (signature_of f) args kw = Ok (vs, kwargs) →
     usable f vs →
     ∃ l s', call_entry f args kw s = (Ok (VRef l), s')).
Proof.
  split.
  - intros v s' Hrun.
    apply call_entry_body in Hrun
      as [(e & _ & [=] & _)|(X & ps & kwargs & _ & Hrun)].
    pose proof (wp_run _ _ _ _ _ (body_of_summary f X ps kwargs s) Hrun v eq_refl)
      as (l & o & evs & -> & Hfresh & Ho & Hcls & Htrace & Hfit & _).
    destruct Hfit as (pre & mid & post & cargs & ckw & margs & mkw & r & -> & _).
    by eexists l, o, _, pre, mid, post, cargs, ckw, margs, mkw, r.
  - intros Hlib Hbic vs kwargs Hbind Husable.
    unfold call_entry. rewrite Hbind. by apply body_of_returns.
Qed.


(** C2.  Every returned model carries a [labels_] attribute.  For the
    classes whose fit routine provides it (hypothesis on the library)
    the attributes are those the library left; gaussian_mixture stores
    under [labels_] what [predict(X)], called right after the final
    [fit(X)], returned; skater stores the value of [current_labels_].
    [X] is the value bound to the first parameter.  And the call does
    return such a model when the library cooperates and the bound
    parameter values are usable. *)
Theorem returned_model_has_labels {ext} {L : Library ext} f args kw
    (s : state ext) :
  library_provides_labels →
  (∀ v s',
     call_entry f args kw s = (Ok v, s') →
     ∃ X ps kwargs l o labels evs,
       bind_signature (signature_of f) args kw = Ok (X :: ps, kwargs) ∧
       v = VRef l ∧
       st_heap s' !! l = Some o ∧
       obj_attrs o !! "labels_" = Some labels ∧
       st_trace s' = st_trace s ++ evs ∧
       (f = def_gaussian_mixture →
          ∃ pre r, evs = pre ++ [ECall l "fit" [X] [] (Returns r);
                                 ECall l "predict" [X] [] (Returns labels)]) ∧
       (f = def_skater → obj_attrs o !! "current_labels_" = Some labels)) ∧
  (library_returns → bic_below_infinity →
   ∀ vs kwargs,
     bind_signature (signature_of f) args kw = Ok (vs, kwargs) →
     usable f vs →
     ∃ l s' o labels,
       call_entry f args kw s = (Ok (VRef l), s') ∧
       st_heap s' !! l = Some o ∧
       obj_attrs o !! "labels_" = Some labels).
Proof.
  intros Hlabelled.
  assert (∀ v s',
            call_entry f args kw s = (Ok v, s') →
            ∃ X ps kwargs l o labels evs,
              bind_signature (signature_of f) args kw = Ok (X :: ps, kwargs) ∧
              v = VRef l ∧
              st_heap s' !! l = Some o ∧
              obj_attrs o !! "labels_" = Some labels ∧
              st_trace s' = st_trace s ++ evs ∧
              (f = def_gaussian_mixture →
                 ∃ pre r, evs = pre ++ [ECall l "fit" [X] [] (Returns r);
                                        ECall l "predict" [X] []
                                          (Returns labels)]) ∧
              (f = def_skater →
                 obj_attrs o !! "current_labels_" = Some labels)) as Hret.
  { intros v s' Hrun.
    apply call_entry_body in Hrun
      as [(e & _ & [=] & _)|(X & ps & kwargs & Hbind & Hrun)].
    pose proof (wp_run _ _ _ _ _ (body_of_summary f X ps kwargs s) Hrun v
                  eq_refl)
      as (l & o & evs & -> & _ & Ho & _ & Htrace & _ & _ & Hlabels).
    assert (∃ labels, obj_attrs o !! "labels_" = Some labels ∧
              (f = def_gaussian_mixture →
                 ∃ pre r, evs = pre ++ [ECall l "fit" [X] [] (Returns r);
                                        ECall l "predict" [X] []
                                          (Returns labels)]) ∧
              (f = def_skater →
                 obj_attrs o !! "current_labels_" = Some labels))
      as (labels & ? & ? & ?).
    { destruct (decide (f = def_gaussian_mixture)) as [->|Hg].
      { destruct Hlabels as (labels & pre & r & ? & ?). exists labels.
        split_and!; [done|intros _; eauto|done]. }
      destruct (decide (f = def_skater)) as [->|Hs].
      { destruct Hlabels as (labels & ? & ?). exists labels.
        by split_and!. }
      destruct f; try congruence;
        destruct Hlabels as (? & ? & ? & ? & ? & ? & Hfit);
        apply (Hlabelled _ Hg Hs) in Hfit as [labels ?];
        exists labels; split_and!; done. }
    by exists X, ps, kwargs, l, o, labels, evs. }
  split; [exact Hret|].
  intros Hlib Hbic vs kwargs Hbind Husable.
  destruct (body_of_returns Hlib f vs kwargs s Hbic Husable) as (l & s' & Hrun).
  assert (call_entry f args kw s = (Ok (VRef l), s')) as Hcall.
  { unfold call_entry. by rewrite Hbind. }
  destruct (Hret _ _ Hcall)
    as (_ & _ & _ & l' & o & labels & _ & _ & [= <-] & Ho & Hl & _).
  by exists l, s', o, labels.
Qed.

(** C5.  The module namespace is a registry from names to functions:
    each algorithm name is bound to a function of the module, and a call
    of that function that returns has instantiated the library class
    that belongs to the name, only that class, and returns the
    instance.  And the call does return such an instance when the
    library cooperates and the bound parameter values are usable. *)
Theorem registry_dispatch {ext} {L : Library ext} name c :
  (name, c) ∈ algorithms →
  ∃ f, cluster_module !! name = Some (Function f) ∧
       select name = Some f ∧
       (∀ args kw (s : state ext) v s',
          call_entry f args kw s = (Ok v, s') →
          ∃ l o evs cargs ckw,
            v = VRef l ∧
            st_heap s' !! l = Some o ∧
            obj_class o = c ∧
            st_trace s' = st_trace s ++ evs ∧
            only_class c evs ∧
            ENew c cargs ckw (Returns l) ∈ evs) ∧
       (library_returns → bic_below_infinity →
        ∀ args kw (s : state ext) vs kwargs,
          bind_signature (signature_of f) args kw = Ok (vs, kwargs) →
          usable f vs →
          ∃ l s' o evs cargs ckw,
            call_entry f args kw s = (Ok (VRef l), s') ∧
            st_heap s' !! l = Some o ∧
            obj_class o = c ∧
            st_trace s' = st_trace s ++ evs ∧
            only_class c evs ∧
            ENew c cargs ckw (Returns l) ∈ evs).
Proof.
  intros Hin.
  assert (∃ f, cluster_module !! name = Some (Function f) ∧
               select name = Some f ∧ class_of f = c) as (f & ? & ? & <-).
  { unfold algorithms in Hin.
    repeat (apply elem_of_cons in Hin as [[= -> ->]|Hin];
            [eexists; split_and!; [by vm_compute|by vm_compute|done]|]).
    by apply elem_of_nil in Hin. }
  assert (∀ args kw (s : state ext) v s',
            call_entry f args kw s = (Ok v, s') →
            ∃ l o evs cargs ckw,
              v = VRef l ∧
              st_heap s' !! l = Some o ∧
              obj_class o = class_of f ∧
              st_trace s' = st_trace s ++ evs ∧
              only_class (class_of f) evs ∧
              ENew (class_of f) cargs ckw (Returns l) ∈ evs) as Hret.
  { intros args kw s v s' Hrun.
    apply call_entry_body in Hrun
      as [(e & _ & [=] & _)|(X & ps & kwargs & _ & Hrun)].
    pose proof (wp_run _ _ _ _ _ (body_of_summary f X ps kwargs s) Hrun v
                  eq_refl)
      as (l & o & evs & -> & _ & Ho & Hcls & Htrace & Hfit & Honly & _).
    destruct Hfit as (pre & mid & post & cargs & ckw & margs & mkw & r & -> & _).
    eexists l, o, _, cargs, ckw. split_and!; [done..|].
    apply elem_of_app. right. by left. }
  exists f. split_and!; [done|done|exact Hret|].
  intros Hlib Hbic args kw s vs kwargs Hbind Husable.
  destruct (body_of_returns Hlib f vs kwargs s Hbic Husable) as (l & s' & Hrun).
  assert (call_entry f args kw s = (Ok (VRef l), s')) as Hcall.
  { unfold call_entry. by rewrite Hbind. }
  destruct (Hret _ _ _ _ _ Hcall)
    as (l' & o & evs & cargs & ckw & [= <-] & Ho & Hcls & Htrace & Honly & Hnew).
  by exists l, s', o, evs, cargs, ckw.
Qed.

(** C6.  The functions of the module are exactly the eleven adapters:
    the six a-spatial ones, which have no parameter [w], and the five
    spatially constrained ones, which have one; every function of the
    module is reached by one of these names. *)
Theorem exactly_eleven_adapters :
  (∀ name, is_Some (select name) ↔ name ∈ aspatial_names ++ spatial_names) ∧
  (∀ name f, select name = Some f →
     spatial f = bool_decide (name ∈ spatial_names)) ∧
  length aspatial_names = 6%nat ∧
  length spatial_names = 5%nat ∧
  NoDup (aspatial_names ++ spatial_names) ∧
  (∀ f, ∃ name, name ∈ aspatial_names ++ spatial_names ∧ select name = Some f).
Proof.
  assert (Hsel : ∀ name f, select name = Some f →
            name ∈ aspatial_names ++ spatial_names ∧
            spatial f = bool_decide (name ∈ spatial_names)).
  { intros name f. unfold select, cluster_module, module_statements.
    cbn [fold_left].
    repeat (rewrite lookup_insert; case_decide;
            [subst name; cbn beta iota;
             first [done | intros [= <-]; split; [compute_done|by vm_compute]]|]).
    by rewrite lookup_empty. }
  split_and!.
  - intros name. split.
    + intros [f Hf]. by apply Hsel in Hf as [? _].
    + unfold aspatial_names, spatial_names. simpl. intros Hin.
      repeat (apply elem_of_cons in Hin as [->|Hin]; [by vm_compute; eexists|]).
      by apply elem_of_nil in Hin.
  - intros name f Hf. by apply Hsel in Hf as [_ ?].
  - done.
  - done.
  - compute_done.
  - intros f. exists (entry_name f).
    destruct f; (split; [compute_done|by vm_compute]).
Qed.

(** ** Argument binding *)

Lemma leftover_lookup params kw k :
  leftover params kw !! k = if decide (k ∈ params.*1) then None else kw !! k.
Proof.
  unfold leftover. revert kw.
  induction params as [|[p d] params IH]; intros kw.
  - destruct (decide (k ∈ ([] : list (string * option value)).*1)) as [Hin|];
      [by apply elem_of_nil in Hin|done].
  - cbn [fold_left]. rewrite IH. rewrite fmap_cons. cbn [fst].
    destruct (decide (k ∈ params.*1)) as [Hin|Hin].
    + rewrite decide_True; [done|]. by right.
    + destruct (decide (k = p)) as [->|Hne].
      * rewrite lookup_delete_eq, decide_True; [done|]. by left.
      * rewrite lookup_delete_ne by done.
        rewrite decide_False; [done|].
        intros [?|?]%elem_of_cons; contradiction.
Qed.

(** Parameters that all have defaults bind without positional
    arguments, whatever the keywords. *)
Lemma bind_params_defaults params kw :
  Forall (λ pd, is_Some pd.2) params →
  ∃ vs, bind_params params [] kw = Ok (vs, leftover params kw).
Proof.
  revert kw. induction params as [|[p d] params IH]; intros kw Hdef; simpl.
  - by exists [].
  - apply Forall_cons in Hdef as [[v0 Hd] Hdef]. simpl in Hd. subst d.
    destruct (IH (delete p kw) Hdef) as [vs Hvs].
    unfold leftover in *. simpl. rewrite Hvs.
    destruct (kw !! p); eauto.
Qed.

(** C4.  The adapters share one calling convention.  Every signature ends
    in [**kwargs] and starts with [X], followed by [w] for the spatial
    adapters and by parameters with defaults only for the others.  Hence
    the call [f(X, w=w, **extra)] binds for every adapter, whatever the
    extra keywords: [X] is the first parameter, [w] is the second
    parameter of a spatial adapter and lands in [kwargs] of an a-spatial
    one, and every extra keyword that names no parameter is collected in
    [kwargs]. *)
Theorem common_calling_convention f X w (extra : gmap string value) :
  extra !! "X" = None →
  sig_var_kw (signature_of f) = true ∧
  (∃ ps, Forall (λ pd, is_Some pd.2) ps ∧
         sig_params (signature_of f)
         = if spatial f then ("X", None) :: ("w", None) :: ps
           else ("X", None) :: ps) ∧
  ∃ vs kwargs,
    bind_signature (signature_of f) [X] (<["w" := w]> extra)
      = Ok (X :: vs, kwargs) ∧
    (if spatial f then vs !! 0%nat = Some w else kwargs !! "w" = Some w) ∧
    ∀ k, k ∉ (sig_params (signature_of f)).*1 →
         kwargs !! k = (<["w" := w]> extra) !! k.
Proof.
  intros HX.
  assert (Hsig : ∃ ps, Forall (λ pd, is_Some pd.2) ps ∧
            sig_params (signature_of f)
            = if spatial f then ("X", None) :: ("w", None) :: ps
              else ("X", None) :: ps).
  { destruct f; eexists; (split; [|by vm_compute]); by repeat constructor. }
  split; [by destruct f|]. split; [done|].
  destruct Hsig as (ps & Hdef & Hsig).
  assert (Hvar : sig_var_kw (signature_of f) = true) by by destruct f.
  unfold bind_signature. rewrite Hvar.
  assert (HXw : (<["w" := w]> extra) !! "X" = None)
    by by rewrite lookup_insert_ne.
  destruct (spatial f) eqn:Hsp; rewrite Hsig; cbn [bind_params].
  - rewrite HXw, lookup_insert_eq.
    destruct (bind_params_defaults ps (delete "w" (<["w" := w]> extra)) Hdef)
      as [vs Hvs].
    rewrite Hvs. eexists _, _. split_and!; [done..|].
    intros k Hk. rewrite !fmap_cons in Hk. rewrite leftover_lookup.
    case_decide as Hin; [destruct Hk; by do 2 right|].
    rewrite lookup_delete_ne; [done|].
    intros <-. destruct Hk. right. by left.
  - rewrite HXw.
    destruct (bind_params_defaults ps (<["w" := w]> extra) Hdef) as [vs Hvs].
    rewrite Hvs. eexists _, _. split_and!; [done| |].
    + rewrite leftover_lookup, lookup_insert_eq.
      case_decide as Hin; [|done].
      unfold spatial in Hsp. apply bool_decide_eq_false in Hsp.
      rewrite Hsig, fmap_cons in Hsp. destruct Hsp. by right.
    + intros k Hk. rewrite fmap_cons in Hk. rewrite leftover_lookup.
      case_decide as Hin; [destruct Hk; by right|done].
Qed.

(** ** Two runs side by side *)



Section Relational.
Context {ext : Type} {L : Library ext}.












(** *** The adapters, two runs at a time *)




End Relational.





Section RelationalAdapters.
Context {ext : Type} {L : Library ext}.















Lemma bindings_register key g : bindings (register key g) = bindings g.
Proof. done. Qed.





End RelationalAdapters.

(** * The theorems on the concrete library *)

Lemma stub_provides_labels : library_provides_labels (L := stub_library).
Proof.
  intros f Hg Hs attrs args kw e r attrs' e'.
  destruct f; try congruence; simpl; unfold stub_method; simpl;
    intros [= <- <- <-]; rewrite lookup_insert_eq; eauto.
Qed.

Lemma stub_bic_below_infinity : bic_below_infinity (L := stub_library).
Proof.
  intros attrs args kw e r attrs' e'. simpl. unfold stub_method. simpl.
  intros [= <- <- <-]. unfold stub_bic.
  destruct (attrs !! "n_components") as [[]|]; simpl; eauto.
Qed.

Lemma stub_library_returns : library_returns (L := stub_library).
Proof.
  split_and!.
  - intros c args kw e. by eexists _, _.
  - intros c meth attrs args kw e Hmeth. simpl. unfold stub_method.
    repeat (apply elem_of_cons in Hmeth as [->|Hmeth]; [simpl; by eexists _, _, _|]).
    by apply elem_of_nil in Hmeth.
  - intros attrs args kw e r attrs' e'. simpl. unfold stub_method. simpl.
    intros [= <- <- <-]. by rewrite lookup_insert_eq.
Qed.

Lemma adapter_returns_library_model_witness :
  (∃ l o evs pre mid post cargs ckw margs mkw r,
     VRef 2%nat = VRef l ∧
     st_heap (initial_state 0%nat) !! l = None ∧
     st_heap (call_entry (L := stub_library) def_gaussian_mixture [sample_X]
                select_best (initial_state 0%nat)).2 !! l = Some o ∧
     obj_class o = class_of def_gaussian_mixture ∧
     st_trace (call_entry (L := stub_library) def_gaussian_mixture [sample_X]
                 select_best (initial_state 0%nat)).2
     = st_trace (initial_state 0%nat) ++ evs ∧
     evs = pre ++ ENew (class_of def_gaussian_mixture) cargs ckw (Returns l)
               :: mid ++ ECall l (fit_routine def_gaussian_mixture) margs mkw
                           (Returns r)
               :: post) ∧
  (∃ l s', call_entry (L := stub_library) def_gaussian_mixture [sample_X]
             select_best (initial_state 0%nat) = (Ok (VRef l), s')).
Proof.
  split.
  - apply (proj1 (adapter_returns_library_model (L := stub_library)
                    def_gaussian_mixture [sample_X] select_best
                    (initial_state 0%nat))).
    vm_compute. reflexivity.
  - eapply (proj2 (adapter_returns_library_model (L := stub_library)
                     def_gaussian_mixture [sample_X] select_best
                     (initial_state 0%nat))
              stub_library_returns stub_bic_below_infinity).
    + vm_compute. reflexivity.
    + simpl. intros _. exists 4. split; [reflexivity|lia].
Defined.

Lemma returned_model_has_labels_witness :
  let run := call_entry (L := stub_library) def_gaussian_mixture [sample_X]
               select_best (initial_state 0%nat) in
  (∃ X ps kwargs l o labels evs,
     bind_signature (signature_of def_gaussian_mixture) [sample_X] select_best
       = Ok (X :: ps, kwargs) ∧
     VRef 2%nat = VRef l ∧
     st_heap run.2 !! l = Some o ∧
     obj_attrs o !! "labels_" = Some labels ∧
     st_trace run.2 = st_trace (initial_state 0%nat) ++ evs ∧
     (def_gaussian_mixture = def_gaussian_mixture →
        ∃ pre r, evs = pre ++ [ECall l "fit" [X] [] (Returns r);
                               ECall l "predict" [X] [] (Returns labels)]) ∧
     (def_gaussian_mixture = def_skater →
        obj_attrs o !! "current_labels_" = Some labels)) ∧
  (∃ l s' o labels,
     run = (Ok (VRef l), s') ∧
     st_heap s' !! l = Some o ∧
     obj_attrs o !! "labels_" = Some labels) ∧
  (∃ l s' o labels,
     call_entry (L := stub_library) def_skater [sample_X; sample_w] ∅
       (initial_state 0%nat) = (Ok (VRef l), s') ∧
     st_heap s' !! l = Some o ∧
     obj_attrs o !! "labels_" = Some labels).
Proof.
  intros run. split_and!.
  - apply (proj1 (returned_model_has_labels (L := stub_library)
                    def_gaussian_mixture [sample_X] select_best
                    (initial_state 0%nat) stub_provides_labels)).
    vm_compute. reflexivity.
  - eapply (proj2 (returned_model_has_labels (L := stub_library)
                     def_gaussian_mixture [sample_X] select_best
                     (initial_state 0%nat) stub_provides_labels)
              stub_library_returns stub_bic_below_infinity).
    + vm_compute. reflexivity.
    + simpl. intros _. exists 4. split; [reflexivity|lia].
  - eapply (proj2 (returned_model_has_labels (L := stub_library)
                     def_skater [sample_X; sample_w] ∅
                     (initial_state 0%nat) stub_provides_labels)
              stub_library_returns stub_bic_below_infinity).
    + vm_compute. reflexivity.
    + exact I.
Defined.

(** C3, as stated, fails.  max_p on a data frame returns, and its only
    call of a method is [fit_from_w], on [X.values]: no call of a method
    named [fit] takes place, and the frame itself is no argument of any
    call. *)
Lemma max_p_bypasses_fit :
  let X := sample_frame in
  let run := call_entry (L := stub_library) def_max_p [X; sample_w] ∅
               (initial_state 0%nat) in
  run.1 = Ok (VRef 0%nat) ∧
  (∀ evs, st_trace run.2 = st_trace (initial_state 0%nat) ++ evs →
          ¬ forwards_X_to_fit X evs) ∧
  (∀ l meth args kw r, ECall l meth args kw r ∈ st_trace run.2 →
                       meth = "fit_from_w" ∧ (X ∉ args) ∧ (X ∉ kw.*2)).
Proof.
  intros X run. split_and!.
  - by vm_compute.
  - intros evs Hevs. vm_compute in Hevs. subst evs.
    intros (l & args & kw & r & Hin & _).
    repeat (apply elem_of_cons in Hin as [[=]|Hin]).
    by apply elem_of_nil in Hin.
  - intros l meth args kw r Hin. vm_compute in Hin.
    repeat (apply elem_of_cons in Hin as [Heq|Hin]; [try done|]).
    + injection Heq as -> -> -> -> ->. split_and!; [done| |].
      * intros Hmem.
        repeat (apply elem_of_cons in Hmem as [[=]|Hmem]).
        by apply elem_of_nil in Hmem.
      * intros Hmem. by apply elem_of_nil in Hmem.
    + by apply elem_of_nil in Hin.
Qed.

Lemma adapter_forwards_data_witness :
  ∃ X ps kwargs l evs margs mkw r,
    bind_signature (signature_of def_max_p) [sample_frame; sample_w] ∅
      = Ok (X :: ps, kwargs) ∧
    VRef 0%nat = VRef l ∧
    st_trace (call_entry (L := stub_library) def_max_p [sample_frame; sample_w]
                ∅ (initial_state 0%nat)).2
    = st_trace (initial_state 0%nat) ++ evs ∧
    ECall l (fit_routine def_max_p) margs mkw (Returns r) ∈ evs ∧
    forwards def_max_p X margs mkw.
Proof.
  apply (adapter_forwards_data (L := stub_library) def_max_p
           [sample_frame; sample_w] ∅ (initial_state 0%nat) (VRef 0%nat)).
  vm_compute. reflexivity.
Defined.

Lemma common_calling_convention_witness :
  sig_var_kw (signature_of def_spenc) = true ∧
  (∃ ps, Forall (λ pd, is_Some pd.2) ps ∧
         sig_params (signature_of def_spenc)
         = if spatial def_spenc then ("X", None) :: ("w", None) :: ps
           else ("X", None) :: ps) ∧
  ∃ vs kwargs,
    bind_signature (signature_of def_spenc) [sample_X]
      (<["w" := sample_w]> {["gamma" := VInt 2; "verbose" := VBool true]})
      = Ok (sample_X :: vs, kwargs) ∧
    (if spatial def_spenc then vs !! 0%nat = Some sample_w
     else kwargs !! "w" = Some sample_w) ∧
    ∀ k, k ∉ (sig_params (signature_of def_spenc)).*1 →
         kwargs !! k
         = (<["w" := sample_w]>
              ({["gamma" := VInt 2; "verbose" := VBool true]}
                 : gmap string value)) !! k.
Proof.
  apply (common_calling_convention def_spenc sample_X sample_w
           {["gamma" := VInt 2; "verbose" := VBool true]}).
  vm_compute. reflexivity.
Defined.

Lemma registry_dispatch_witness :
  ∃ f, cluster_module !! "skater" = Some (Function f) ∧
       select "skater" = Some f ∧
       ∃ l s' o evs cargs ckw,
         call_entry (L := stub_library) f [sample_X; sample_w] ∅
           (initial_state 0%nat) = (Ok (VRef l), s') ∧
         st_heap s' !! l = Some o ∧
         obj_class o = Spanning_Forest ∧
         st_trace s' = st_trace (initial_state 0%nat) ++ evs ∧
         only_class Spanning_Forest evs ∧
         ENew Spanning_Forest cargs ckw (Returns l) ∈ evs.
Proof.
  assert (("skater", Spanning_Forest) ∈ algorithms) as Hin.
  { vm_compute. by repeat constructor. }
  destruct (registry_dispatch (L := stub_library) "skater" Spanning_Forest Hin)
    as (f & Hbound & Hselect & _ & Hreturns).
  exists f. split_and!; [done|done|].
  assert (f = def_skater) as Hf.
  { vm_compute in Hselect. congruence. }
  eapply (Hreturns stub_library_returns stub_bic_below_infinity).
  - rewrite Hf. vm_compute. reflexivity.
  - rewrite Hf. exact I.
Defined.



Lemma best_gmm_bound_iff_loop_runs_witness :
  (gaussian_mixture (L := stub_library) sample_X (VInt 5) (VStr "full")
     (VBool true) (VInt 4) (VInt 0) ∅ (initial_state 0%nat)).1
  ≠ Raise (UnboundLocalError "best_gmm") ∧
  (gaussian_mixture (L := stub_library) sample_X (VInt 5) (VStr "full")
     (VBool true) (VInt 0) (VInt 0) ∅ (initial_state 0%nat)).1
  = Raise (UnboundLocalError "best_gmm").
Proof.
  split.
  - assert (1 ≤ 4) as Hmax by lia.
    destruct (proj1 (best_gmm_bound_iff_loop_runs (L := stub_library) sample_X
                       (VInt 5) (VStr "full") 4 (VInt 0) ∅ (initial_state 0%nat))
                Hmax) as [_ Hbound].
    exact (proj2 (Hbound stub_bic_below_infinity)).
  - assert (0 < 1) as Hmax by lia.
    exact (proj1 (proj2 (best_gmm_bound_iff_loop_runs (L := stub_library)
                           sample_X (VInt 5) (VStr "full") 0 (VInt 0) ∅
                           (initial_state 0%nat)) Hmax)).
Defined.

(** * Further properties of the module *)

(** ** The first exception of the library ends the call *)

Lemma orderly_nil {A} (r : result A) : orderly r [].
Proof. left. constructor. Qed.

Lemma orderly_returned {A} (r : result A) (e : event) :
  returned e → orderly r [e].
Proof. intros He. left. by repeat constructor. Qed.

Lemma orderly_raised {A} (e : event) msg :
  raised e msg → orderly (Raise (LibraryError msg) : result A) [e].
Proof. intros He. right. exists [], e, msg. by repeat split. Qed.

Lemma orderly_Ok {A} (a : A) evs : orderly (Ok a) evs → Forall returned evs.
Proof. by intros [?|(? & ? & ? & _ & _ & _ & ?)]. Qed.

Lemma orderly_app {A B} (a : A) (r : result B) evs1 evs2 :
  orderly (Ok a) evs1 → orderly r evs2 → orderly r (evs1 ++ evs2).
Proof.
  intros H1%orderly_Ok [H2|(pre & e & msg & -> & Hpre & He & ->)].
  - left. by apply Forall_app.
  - right. exists (evs1 ++ pre), e, msg.
    split_and!; [by rewrite app_assoc| |done..]. by apply Forall_app.
Qed.

Section Propagation.
Context {ext : Type} {L : Library ext}.

Lemma propagates_quiet {A} (m : M ext A) :
  (∀ s, st_trace (m s).2 = st_trace s) → propagates m.
Proof.
  intros Hm s. exists []. rewrite app_nil_r. split; [apply Hm|apply orderly_nil].
Qed.

Lemma propagates_ret {A} (a : A) : propagates (mret a : M ext A).
Proof. by apply propagates_quiet. Qed.

Lemma propagates_raise {A} e : propagates (raise e : M ext A).
Proof. by apply propagates_quiet. Qed.

Lemma propagates_lift_result {A} (r : result A) :
  propagates (lift_result r : M ext A).
Proof. by apply propagates_quiet. Qed.

Lemma propagates_warn lineno msg :
  propagates (warn lineno msg : M ext unit).
Proof. by apply propagates_quiet. Qed.

Lemma propagates_getattr l name : propagates (getattr l name : M ext value).
Proof.
  apply propagates_quiet. intros s. unfold getattr.
  destruct (st_heap s !! l) as [o|]; [|done].
  by destruct (obj_attrs o !! name).
Qed.

Lemma propagates_setattr l name v :
  propagates (setattr l name v : M ext unit).
Proof.
  apply propagates_quiet. intros s. unfold setattr.
  by destruct (st_heap s !! l).
Qed.

Lemma propagates_value_getattr v name :
  propagates (value_getattr v name : M ext value).
Proof.
  destruct v; simpl; try apply propagates_raise.
  - destruct (String.eqb name "values");
      [apply propagates_ret|apply propagates_raise].
  - destruct (String.eqb name "sparse");
      [apply propagates_ret|apply propagates_raise].
  - apply propagates_getattr.
Qed.

Lemma propagates_new c args kw : propagates (new c args kw).
Proof.
  intros s. unfold new.
  destruct (lib_new c args kw (st_ext s)) as [[attrs|msg] e']; simpl.
  - eexists. split; [done|]. by apply orderly_returned.
  - eexists. split; [done|]. by apply orderly_raised.
Qed.

Lemma propagates_call l meth args kw : propagates (call l meth args kw).
Proof.
  intros s. unfold call.
  destruct (st_heap s !! l) as [o|].
  - destruct (lib_method _ _ _ _ _ _) as [[[r|msg] attrs'] e']; simpl.
    + eexists. split; [done|]. by apply orderly_returned.
    + eexists. split; [done|]. by apply orderly_raised.
  - exists []. rewrite app_nil_r. split; [done|apply orderly_nil].
Qed.

Lemma propagates_bind {A B} (m : M ext A) (k : A → M ext B) :
  propagates m → (∀ a, propagates (k a)) → propagates (m ≫= k).
Proof.
  intros Hm Hk s. destruct (Hm s) as (evs1 & Ht1 & Ho1).
  unfold mbind, M_mbind, M_bind.
  destruct (m s) as [[a|e] s1]; simpl in *.
  - destruct (Hk a s1) as (evs2 & Ht2 & Ho2).
    exists (evs1 ++ evs2). split; [by rewrite Ht2, Ht1, app_assoc|].
    by eapply orderly_app.
  - exists evs1. split; [done|].
    destruct Ho1 as [?|(pre & e0 & msg & ? & ? & ? & [= ->])]; [by left|].
    right. by exists pre, e0, msg.
Qed.

Lemma propagates_for_each {A B} (xs : list A) (body : B → A → M ext B) acc :
  (∀ acc x, propagates (body acc x)) → propagates (for_each xs body acc).
Proof.
  intros Hbody. revert acc.
  induction xs as [|x xs IH]; intros acc; simpl.
  - apply propagates_ret.
  - apply propagates_bind; auto.
Qed.

End Propagation.

Ltac solve_propagates :=
  repeat first
    [ apply propagates_ret
    | apply propagates_raise
    | apply propagates_lift_result
    | apply propagates_warn
    | apply propagates_new
    | apply propagates_call
    | apply propagates_getattr
    | apply propagates_setattr
    | apply propagates_value_getattr
    | apply propagates_bind; [|intros ?]
    | apply propagates_for_each; intros ? ?
    | match goal with
      | |- propagates (if ?b then _ else _) => destruct b
      | |- propagates (match ?x with _ => _ end) => destruct x
      end ].

Section PropagationOfAdapters.
Context {ext : Type} {L : Library ext}.

Lemma body_of_propagates f vs kwargs :
  propagates (body_of f vs kwargs : M ext value).
Proof.
  destruct f; simpl;
    do 7 (try (destruct vs as [|? vs]; [try apply propagates_raise|]));
    try apply propagates_raise;
    unfold ward, kmeans, affinity_propagation, spectral, gaussian_mixture,
      gaussian_mixture_fit, bic_selection, bic_step, hdbscan, ward_spatial,
      spenc, skater, azp, max_p;
    solve_propagates.
Qed.

(** X1.  No adapter catches an exception of the library or goes on after
    one.  In every call, whatever its outcome, either every call into the
    library returned, or the last one raised and the exception it raised
    is the outcome of the adapter call; a call that returns has seen no
    exception. *)
Theorem library_exception_ends_call f args kw (s : state ext) :
  ∃ evs,
    st_trace (call_entry f args kw s).2 = st_trace s ++ evs ∧
    (Forall returned evs ∨
     ∃ pre e msg,
       evs = pre ++ [e] ∧ Forall returned pre ∧ raised e msg ∧
       (call_entry f args kw s).1 = Raise (LibraryError msg)) ∧
    (∀ v, (call_entry f args kw s).1 = Ok v → Forall returned evs).
Proof.
  assert (propagates (call_entry f args kw : M ext value)) as Hp.
  { unfold call_entry.
    destruct (bind_signature (signature_of f) args kw) as [[vs kwargs]|e].
    - apply body_of_propagates.
    - apply propagates_raise. }
  destruct (Hp s) as (evs & Htrace & Hord).
  exists evs. split_and!; [done|done|].
  intros v Hv. rewrite Hv in Hord. by eapply orderly_Ok.
Qed.

End PropagationOfAdapters.

(** ** Earlier objects are left alone *)

Section Confinement.
Context {ext : Type} {L : Library ext}.

Lemma confined_quiet {A} n (m : M ext A) (P : A → Prop) :
  (∀ s, st_heap (m s).2 = st_heap s) →
  (∀ s, st_trace (m s).2 = st_trace s) →
  (∀ s a, (m s).1 = Ok a → P a) →
  confined n m P.
Proof.
  intros Hheap Htrace HP s Hn. rewrite Hheap, Htrace.
  split_and!; [done|done| |by eauto].
  exists []. by rewrite app_nil_r.
Qed.

Lemma confined_ret {A} n (a : A) (P : A → Prop) :
  P a → confined n (mret a : M ext A) P.
Proof. intros Ha. apply confined_quiet; [done..|]. by intros s a' [= <-]. Qed.

Lemma confined_raise {A} n e (P : A → Prop) :
  confined n (raise e : M ext A) P.
Proof. by apply confined_quiet. Qed.

Lemma confined_lift_result {A} n (r : result A) (P : A → Prop) :
  (∀ a, r = Ok a → P a) → confined n (lift_result r : M ext A) P.
Proof. intros Hr. apply confined_quiet; [done..|]. intros s a. apply Hr. Qed.

Lemma confined_warn n lineno msg :
  confined n (warn lineno msg : M ext unit) (λ _, True).
Proof. by apply confined_quiet. Qed.

Lemma confined_getattr n l name :
  confined n (getattr l name : M ext value) (λ _, True).
Proof.
  apply confined_quiet; [| |done]; intros s; unfold getattr;
    (destruct (st_heap s !! l) as [o|]; [|done]);
    by destruct (obj_attrs o !! name).
Qed.

Lemma confined_value_getattr n v name :
  confined n (value_getattr v name : M ext value) (λ _, True).
Proof.
  destruct v; simpl; try apply confined_raise.
  - destruct (String.eqb name "values");
      [by apply confined_ret|apply confined_raise].
  - destruct (String.eqb name "sparse");
      [by apply confined_ret|apply confined_raise].
  - apply confined_getattr.
Qed.

Lemma confined_new n c args kw :
  confined n (new c args kw) (λ l, (n ≤ l)%nat).
Proof.
  intros s Hn. unfold new.
  destruct (lib_new c args kw (st_ext s)) as [[attrs|msg] e']; simpl.
  - split_and!.
    + by rewrite take_app_le.
    + rewrite length_app. lia.
    + eexists. split; [done|]. by apply Forall_singleton.
    + by intros l [= <-].
  - split_and!; [done..| |done].
    eexists. split; [done|]. by apply Forall_singleton.
Qed.

Lemma confined_call n (l : loc) meth args kw :
  (n ≤ l)%nat → confined n (call l meth args kw) (λ _, True).
Proof.
  intros Hl s Hn. unfold call.
  destruct (st_heap s !! l) as [o|].
  - destruct (lib_method _ _ _ _ _ _) as [[res attrs'] e']; simpl.
    split_and!; [by apply take_insert_ge|by rewrite length_insert| |done].
    eexists. split; [done|]. by apply Forall_singleton.
  - simpl. split_and!; [done..| |done]. exists []. by rewrite app_nil_r.
Qed.

Lemma confined_setattr n (l : loc) name v :
  (n ≤ l)%nat → confined n (setattr l name v : M ext unit) (λ _, True).
Proof.
  intros Hl s Hn. unfold setattr.
  destruct (st_heap s !! l) as [o|]; simpl.
  - split_and!; [by apply take_insert_ge|by rewrite length_insert| |done].
    exists []. by rewrite app_nil_r.
  - split_and!; [done..| |done]. exists []. by rewrite app_nil_r.
Qed.

Lemma confined_bind {A B} n (m : M ext A) (k : A → M ext B)
    (P : A → Prop) (Q : B → Prop) :
  confined n m P → (∀ a, P a → confined n (k a) Q) → confined n (m ≫= k) Q.
Proof.
  intros Hm Hk s Hn. destruct (Hm s Hn) as (Ht & Hlen & (evs & He & Hevs) & HP).
  unfold mbind, M_mbind, M_bind.
  destruct (m s) as [[a|e] s1]; simpl in *.
  - destruct (Hk a (HP a eq_refl) s1 Hlen)
      as (Ht' & Hlen' & (evs' & He' & Hevs') & HQ).
    split_and!; [congruence|done| |done].
    exists (evs ++ evs'). split; [by rewrite He', He, app_assoc|].
    by apply Forall_app.
  - split_and!; [done..| |done]. eauto.
Qed.

Lemma confined_for_each {A B} n (xs : list A) (body : B → A → M ext B)
    (I : B → Prop) acc :
  I acc →
  (∀ acc x, I acc → confined n (body acc x) I) →
  confined n (for_each xs body acc) I.
Proof.
  intros HI Hbody. revert acc HI.
  induction xs as [|x xs IH]; intros acc HI; simpl.
  - by apply confined_ret.
  - eapply confined_bind; [by apply Hbody|]. intros acc' HI'. by apply IH.
Qed.

End Confinement.

(** A step of an adapter: create, call on an instance the adapter has
    created itself, read an argument, return. *)
Ltac confined_step :=
  first
    [ eapply confined_bind; [apply confined_new|intros ?l ?Hl]
    | eapply confined_bind; [by apply confined_call|intros ? _]
    | eapply confined_bind; [apply confined_value_getattr|intros ? _]
    | eapply confined_bind; [apply confined_getattr|intros ? _]
    | eapply confined_bind; [by apply confined_setattr|intros ? _]
    | by apply confined_ret ].

Section ConfinementOfAdapters.
Context {ext : Type} {L : Library ext}.

Lemma bic_selection_confined n X max_clusters random_state :
  confined n (bic_selection X max_clusters random_state) (λ l, (n ≤ l)%nat).
Proof.
  unfold bic_selection.
  eapply confined_bind with (P := λ _, True);
    [by apply confined_lift_result|intros max _].
  eapply confined_bind with (P := λ _, True);
    [by apply confined_lift_result|intros range _].
  eapply confined_bind.
  - apply (confined_for_each n _ _
             (λ vars, ∀ gmm, best_gmm vars = Some gmm → (n ≤ gmm)%nat));
      [done|].
    intros vars cv_type Hvars. apply confined_for_each; [done|].
    intros vars' n_components Hvars'. unfold bic_step.
    do 3 confined_step.
    eapply confined_bind with (P := λ _, True);
      [by apply confined_lift_result|intros [] _];
      apply confined_ret; simpl; [by intros ? [= <-]|done].
  - intros vars Hvars. simpl.
    destruct (best_gmm vars) as [gmm|] eqn:E;
      [apply confined_ret; auto|apply confined_raise].
Qed.

Lemma body_of_confined f vs kwargs (s : state ext) :
  confined (length (st_heap s)) (body_of f vs kwargs) (λ _, True).
Proof.
  destruct f; simpl;
    do 7 (try (destruct vs as [|? vs]; [try apply confined_raise|]));
    try apply confined_raise;
    unfold ward, kmeans, affinity_propagation, spectral, hdbscan,
      ward_spatial, spenc, skater, azp, max_p;
    try (by repeat confined_step).
  unfold gaussian_mixture.
  eapply confined_bind with (P := λ _, True).
  { destruct (is_None v4); [apply confined_warn|by apply confined_ret]. }
  intros _ _. unfold gaussian_mixture_fit.
  eapply confined_bind with (P := λ l, (length (st_heap s) ≤ l)%nat).
  { destruct (is_True v2); [apply bic_selection_confined|apply confined_new]. }
  intros model Hmodel. by repeat confined_step.
Qed.

Lemma call_entry_confined f args kw (s : state ext) :
  confined (length (st_heap s)) (call_entry f args kw) (λ _, True).
Proof.
  unfold call_entry.
  destruct (bind_signature (signature_of f) args kw) as [[vs kwargs]|e].
  - apply body_of_confined.
  - apply confined_raise.
Qed.

(** X2.  An adapter works on the instances it creates and on no other.
    Whatever the outcome of a call, every model object that existed
    before it is afterwards as it was, with the same class and the same
    attributes at the same location, and every method call of the run
    is on an instance created in the run. *)
Theorem earlier_models_untouched f args kw (s : state ext) l o :
  st_heap s !! l = Some o →
  st_heap (call_entry f args kw s).2 !! l = Some o ∧
  ∃ evs,
    st_trace (call_entry f args kw s).2 = st_trace s ++ evs ∧
    ∀ l' meth margs mkw res,
      ECall l' meth margs mkw res ∈ evs → l' ≠ l ∧ st_heap s !! l' = None.
Proof.
  intros Ho.
  destruct (call_entry_confined f args kw s s)
    as (Htake & _ & (evs & Htrace & Hevs) & _); [done|].
  rewrite (take_ge (st_heap s)) in Htake by done.
  split.
  - rewrite <- Htake in Ho. by apply lookup_take_Some in Ho as [? _].
  - exists evs. split; [done|].
    intros l' meth margs mkw res Hin.
    rewrite Forall_forall in Hevs. specialize (Hevs _ Hin). simpl in Hevs.
    apply lookup_lt_Some in Ho. split; [lia|].
    by apply lookup_ge_None.
Qed.

(** X3.  Calls compose.  When a call has returned a model and another
    call is made afterwards, with whatever arguments, and returns, the
    second model is another object than the first, and the first model
    is as the first call left it. *)
Theorem later_call_keeps_earlier_model f1 args1 kw1 f2 args2 kw2
    (s : state ext) v1 s1 v2 s2 :
  call_entry f1 args1 kw1 s = (Ok v1, s1) →
  call_entry f2 args2 kw2 s1 = (Ok v2, s2) →
  ∃ l1 l2 o1,
    v1 = VRef l1 ∧ v2 = VRef l2 ∧ l1 ≠ l2 ∧
    st_heap s1 !! l1 = Some o1 ∧ st_heap s2 !! l1 = Some o1.
Proof.
  intros Hrun1 Hrun2.
  assert (∀ f args kw (s s' : state ext) v,
            call_entry f args kw s = (Ok v, s') →
            ∃ l o, v = VRef l ∧ st_heap s !! l = None
                   ∧ st_heap s' !! l = Some o) as Hfresh.
  { intros f args kw s0 s' v Hrun.
    destruct (call_entry_body _ _ _ _ _ _ Hrun)
      as [(e & _ & [=] & _)|(X & ps & kwargs & _ & Hbody)].
    destruct (wp_run _ _ _ _ _ (body_of_summary f X ps kwargs s0) Hbody
                v eq_refl) as (l & o & evs & -> & Hnew & Ho & _).
    eauto. }
  destruct (Hfresh _ _ _ _ _ _ Hrun1) as (l1 & o1 & -> & _ & Ho1).
  destruct (Hfresh _ _ _ _ _ _ Hrun2) as (l2 & o2 & -> & Hnew2 & _).
  exists l1, l2, o1. split_and!; [done|done|congruence|done|].
  destruct (call_entry_confined f2 args2 kw2 s1 s1) as (Htake & _); [done|].
  rewrite Hrun2 in Htake. simpl in Htake.
  rewrite (take_ge (st_heap s1)) in Htake by done.
  rewrite <- Htake in Ho1. by apply lookup_take_Some in Ho1 as [? _].
Qed.

End ConfinementOfAdapters.

(** ** What a run adds to the trace *)

Section Emits.
Context {ext : Type} {L : Library ext}.

Lemma emits_mono {A} (m : M ext A) (Q Q' : result A → list event → Prop) :
  emits m Q → (∀ r evs, Q r evs → Q' r evs) → emits m Q'.
Proof.
  intros Hm HQ s. destruct (Hm s) as (evs & Ht & Hq). eauto.
Qed.

Lemma emits_quiet {A} (m : M ext A) (Q : result A → list event → Prop) :
  (∀ s, st_trace (m s).2 = st_trace s) → (∀ r, Q r []) → emits m Q.
Proof.
  intros Ht HQ s. exists []. by rewrite Ht, app_nil_r.
Qed.

Lemma emits_ret {A} (a : A) (Q : result A → list event → Prop) :
  Q (Ok a) [] → emits (mret a : M ext A) Q.
Proof. intros HQ s. exists []. by rewrite app_nil_r. Qed.

Lemma emits_raise {A} e (Q : result A → list event → Prop) :
  Q (Raise e) [] → emits (raise e : M ext A) Q.
Proof. intros HQ s. exists []. by rewrite app_nil_r. Qed.

Lemma emits_lift_result {A} (r : result A)
    (Q : result A → list event → Prop) :
  Q r [] → emits (lift_result r : M ext A) Q.
Proof. intros HQ s. exists []. by rewrite app_nil_r. Qed.

Lemma emits_warn lineno msg (Q : result unit → list event → Prop) :
  Q (Ok tt) [] → emits (warn lineno msg : M ext unit) Q.
Proof. intros HQ s. exists []. simpl. by rewrite app_nil_r. Qed.

Lemma emits_getattr l name (Q : result value → list event → Prop) :
  (∀ r, Q r []) → emits (getattr l name : M ext value) Q.
Proof.
  intros HQ. apply emits_quiet; [|done]. intros s. unfold getattr.
  destruct (st_heap s !! l) as [o|]; [|done].
  by destruct (obj_attrs o !! name).
Qed.

Lemma emits_setattr l name v (Q : result unit → list event → Prop) :
  (∀ r, Q r []) → emits (setattr l name v : M ext unit) Q.
Proof.
  intros HQ. apply emits_quiet; [|done]. intros s. unfold setattr.
  by destruct (st_heap s !! l) as [o|].
Qed.

Lemma emits_value_getattr v name (Q : result value → list event → Prop) :
  (∀ r, Q r []) → emits (value_getattr v name : M ext value) Q.
Proof.
  intros HQ. destruct v; simpl; try by apply emits_raise.
  - destruct (String.eqb name "values");
      [by apply emits_ret|by apply emits_raise].
  - destruct (String.eqb name "sparse");
      [by apply emits_ret|by apply emits_raise].
  - by apply emits_getattr.
Qed.

Lemma emits_new c args kw (Q : result loc → list event → Prop) :
  (∀ l, Q (Ok l) [ENew c args kw (Returns l)]) →
  (∀ msg, Q (Raise (LibraryError msg)) [ENew c args kw (Raises msg)]) →
  emits (new c args kw) Q.
Proof.
  intros Hok Herr s. unfold new.
  destruct (lib_new c args kw (st_ext s)) as [[attrs|msg] e']; simpl; eauto.
Qed.

Lemma emits_call l meth args kw (Q : result value → list event → Prop) :
  (∀ res, Q (outcome_result res) [ECall l meth args kw res]) →
  Q (Raise (InvalidReference l)) [] →
  emits (call l meth args kw) Q.
Proof.
  intros Hok Herr s. unfold call.
  destruct (st_heap s !! l) as [o|].
  - destruct (lib_method _ _ _ _ _ _) as [[res attrs'] e']; simpl; eauto.
  - exists []. by rewrite app_nil_r.
Qed.

Lemma emits_bind {A B} (m : M ext A) (k : A → M ext B)
    (Q : result B → list event → Prop) :
  emits m (λ r evs, match r with
                    | Ok a => emits (k a) (λ r' evs', Q r' (evs ++ evs'))
                    | Raise e => Q (Raise e) evs
                    end) →
  emits (m ≫= k) Q.
Proof.
  intros Hm s. destruct (Hm s) as (evs & Ht & Hr).
  unfold mbind, M_mbind, M_bind.
  destruct (m s) as [[a|e] s1]; simpl in *.
  - destruct (Hr s1) as (evs' & Ht' & HQ).
    exists (evs ++ evs'). by rewrite Ht', Ht, app_assoc.
  - eauto.
Qed.

(** The loop rule: the invariant [I] speaks of the items the loop is
    done with, the loop variables and the events so far. *)
Lemma emits_for_each_from {A B} (I : list A → B → list event → Prop)
    (xs : list A) (body : B → A → M ext B)
    (Q : result B → list event → Prop) seen rest acc evs :
  xs = seen ++ rest →
  I seen acc evs →
  (∀ seen x rest acc evs,
     xs = seen ++ x :: rest → I seen acc evs →
     emits (body acc x)
       (λ r evs', match r with
                  | Ok acc' => I (seen ++ [x]) acc' (evs ++ evs')
                  | Raise e => Q (Raise e) (evs ++ evs')
                  end)) →
  (∀ acc evs, I xs acc evs → Q (Ok acc) evs) →
  emits (for_each rest body acc) (λ r evs', Q r (evs ++ evs')).
Proof.
  intros Hxs HI Hbody Hend. revert seen acc evs Hxs HI.
  induction rest as [|x rest IH]; intros seen acc evs Hxs HI; simpl.
  - apply emits_ret. rewrite !app_nil_r in *. subst xs. by apply Hend.
  - apply emits_bind. eapply emits_mono; [by eapply Hbody|].
    intros [acc'|e] evs' Hr; simpl in *; [|done].
    eapply emits_mono.
    + apply (IH (seen ++ [x]) acc' (evs ++ evs')); [|done].
      by rewrite <- app_assoc.
    + intros r evs''. by rewrite app_assoc.
Qed.

Lemma emits_for_each {A B} (I : list A → B → list event → Prop)
    (xs : list A) (body : B → A → M ext B)
    (Q : result B → list event → Prop) acc :
  I [] acc [] →
  (∀ seen x rest acc evs,
     xs = seen ++ x :: rest → I seen acc evs →
     emits (body acc x)
       (λ r evs', match r with
                  | Ok acc' => I (seen ++ [x]) acc' (evs ++ evs')
                  | Raise e => Q (Raise e) (evs ++ evs')
                  end)) →
  (∀ acc evs, I xs acc evs → Q (Ok acc) evs) →
  emits (for_each xs body acc) Q.
Proof.
  intros HI Hbody Hend.
  by apply (emits_for_each_from I xs body Q [] xs acc []).
Qed.

End Emits.

Ltac emits_step :=
  first
    [ apply emits_bind
    | apply emits_new; [intros ?l|intros ?msg]
    | apply emits_call; [intros [?r|?msg]|]
    | apply emits_value_getattr; intros [?v|?e]
    | apply emits_getattr; intros [?v|?e]
    | apply emits_setattr; intros [[]|?e]
    | apply emits_ret
    | apply emits_raise ]; cbn [app outcome_result].

Section EmitsOfAdapters.
Context {ext : Type} {L : Library ext}.

Lemma body_of_two_calls f vs kwargs :
  f ≠ def_gaussian_mixture →
  emits (body_of f vs kwargs : M ext value)
    (λ r evs, ∀ v, r = Ok v →
       ∃ l cargs ckw margs mkw res,
         v = VRef l ∧
         evs = [ENew (class_of f) cargs ckw (Returns l);
                ECall l (fit_routine f) margs mkw (Returns res)]).
Proof.
  intros Hf.
  destruct f; try done; simpl;
    do 7 (try (destruct vs as [|? vs]; [try (by apply emits_raise)|]));
    try (by apply emits_raise);
    unfold ward, kmeans, affinity_propagation, spectral, hdbscan,
      ward_spatial, spenc, skater, azp, max_p;
    repeat emits_step; try done;
    intros ? [= <-]; eauto 10.
Qed.

(** X4.  A returning call of any adapter other than gaussian_mixture has
    made exactly two calls into its library: the constructor of its
    class and the fit routine of the new instance, which it returns. *)
Theorem one_model_one_fit f args kw (s : state ext) v s' :
  f ≠ def_gaussian_mixture →
  call_entry f args kw s = (Ok v, s') →
  ∃ l cargs ckw margs mkw res,
    v = VRef l ∧
    st_trace s' = st_trace s
      ++ [ENew (class_of f) cargs ckw (Returns l);
          ECall l (fit_routine f) margs mkw (Returns res)].
Proof.
  intros Hf Hrun. unfold call_entry in Hrun.
  destruct (bind_signature (signature_of f) args kw) as [[vs kwargs]|e];
    [|done].
  destruct (body_of_two_calls f vs kwargs Hf s) as (evs & Ht & Hq).
  rewrite Hrun in Ht, Hq. simpl in *.
  destruct (Hq v eq_refl) as (l & cargs & ckw & margs & mkw & res & -> & ->).
  eauto 10.
Qed.

End EmitsOfAdapters.

(** ** The log of the model selection *)

Lemma Qltb_lt x y : Qltb x y = true ↔ (x < y)%Q.
Proof. unfold Qltb, Qlt. apply Z.ltb_lt. Qed.

Lemma float_lt_irrefl x : float_lt x x = false.
Proof.
  destruct x as [q| | |]; simpl; [|done..].
  unfold Qltb. apply Z.ltb_irrefl.
Qed.

Lemma float_lt_trans x y z :
  float_lt x y = true → float_lt y z = true → float_lt x z = true.
Proof.
  destruct x as [p| | |], y as [q| | |], z as [r| | |]; simpl; try done.
  rewrite !Qltb_lt. apply Qlt_trans.
Qed.

(** A value that is below another one is a number, and stays below
    nothing that the other one is not below. *)
Lemma py_lt_lower b lowest b' :
  py_lt b lowest = Ok true → py_lt b' lowest = Ok false →
  py_lt b' b = Ok false.
Proof.
  unfold py_lt.
  destruct (as_float b) as [x|], (as_float lowest) as [y|],
    (as_float b') as [z|]; try done.
  intros [= Hxy] [= Hzy]. f_equal.
  destruct (float_lt z x) eqn:Hzx; [|done].
  by rewrite (float_lt_trans z x y) in Hzy.
Qed.

Lemma py_lt_self b lowest :
  py_lt b lowest = Ok true → py_lt b b = Ok false ∧ is_Some (as_float b).
Proof.
  unfold py_lt.
  destruct (as_float b) as [x|], (as_float lowest) as [y|]; try done.
  intros _. by rewrite float_lt_irrefl.
Qed.

Lemma constructions_app evs evs' :
  constructions (evs ++ evs') = constructions evs ++ constructions evs'.
Proof. apply omap_app. Qed.

Lemma candidates_length max_clusters :
  length (candidates max_clusters) = (4 * Z.to_nat max_clusters)%nat.
Proof.
  unfold candidates, cv_types. simpl.
  rewrite !length_app, !length_fmap, !length_seqZ. simpl. lia.
Qed.

Section SelectionLog.
Context {ext : Type} {L : Library ext}.

Lemma bic_step_log X random_state cv_type n_components seen vars evs :
  selection_log X random_state seen vars evs →
  emits (bic_step X random_state cv_type vars n_components)
    (λ r evs',
       match r with
       | Ok vars' =>
           selection_log X random_state (seen ++ [(cv_type, n_components)])
             vars' (evs ++ evs')
       | Raise _ => True
       end).
Proof.
  intros (Hnew & Hnum & Hlow & Hbest). unfold bic_step.
  apply emits_bind, emits_new; [intros l|done].
  apply emits_bind, emits_call; [intros [r|msg]; [|done]|done].
  apply emits_bind, emits_call; [intros [r0|msg]; [|done]|done].
  cbn [outcome_result].
  apply emits_bind, emits_lift_result.
  destruct (py_lt r0 (lowest_bic vars)) as [[]|] eqn:Hlt; [| |done];
    apply emits_ret; rewrite app_nil_r; simpl.
  - destruct (py_lt_self _ _ Hlt) as [Hself Hb]. split_and!.
    + rewrite constructions_app, Hnew, fmap_app. done.
    + done.
    + intros l' args kw b Hin. apply elem_of_app in Hin as [Hin|Hin].
      * eapply py_lt_lower; [done|]. by eapply Hlow.
      * apply elem_of_cons in Hin as [[=]|Hin].
        apply elem_of_cons in Hin as [[=]|Hin].
        apply list_elem_of_singleton in Hin as [= -> -> -> <-]. done.
    + intros gmm [= <-].
      exists (evs ++ [ENew GaussianMixture []
                       [("n_components", VInt n_components);
                        ("random_state", random_state);
                        ("covariance_type", VStr cv_type)] (Returns l)]),
        [], r.
      by rewrite <- app_assoc.
  - split_and!.
    + rewrite constructions_app, Hnew, fmap_app. done.
    + done.
    + intros l' args kw b Hin. apply elem_of_app in Hin as [Hin|Hin].
      * by eapply Hlow.
      * apply elem_of_cons in Hin as [[=]|Hin].
        apply elem_of_cons in Hin as [[=]|Hin].
        apply list_elem_of_singleton in Hin as [= -> -> -> <-]. done.
    + intros gmm Hgmm.
      destruct (Hbest gmm Hgmm) as (pre & post & r1 & ->).
      eexists pre, (post ++ _), r1.
      rewrite <- app_assoc. simpl. done.
Qed.

End SelectionLog.

Section SelectionOfTheBestModel.
Context {ext : Type} {L : Library ext}.

Lemma selection_log_start X random_state :
  selection_log X random_state [] (BicLocals (VFloat np_infty) [] None) [].
Proof.
  split_and!; [done|by eexists| |done].
  intros l args kw b Hin. by apply elem_of_nil in Hin.
Qed.

Lemma bic_selection_log X max_clusters random_state :
  emits (bic_selection X (VInt max_clusters) random_state)
    (λ r evs,
       ∀ gmm, r = Ok gmm →
         ∃ vars, best_gmm vars = Some gmm ∧
                 selection_log X random_state (candidates max_clusters)
                   vars evs).
Proof.
  unfold bic_selection, py_add_int.
  apply emits_bind, emits_lift_result. unfold py_range.
  apply emits_bind, emits_lift_result.
  replace (max_clusters + 1 - 1) with max_clusters by lia.
  apply emits_bind.
  apply (emits_for_each
           (λ seen vars evs,
              selection_log X random_state
                (cv_type ← seen;
                 (λ n_components, (cv_type, n_components))
                   <$> seqZ 1 max_clusters)
                vars evs)).
  - apply selection_log_start.
  - intros seen cv_type rest vars evs _ Hlog.
    apply (emits_for_each
             (λ seen_n vars' evs',
                selection_log X random_state
                  ((cv ← seen;
                    (λ n_components, (cv, n_components))
                      <$> seqZ 1 max_clusters)
                   ++ ((λ n_components, (cv_type, n_components)) <$> seen_n))
                  vars' (evs ++ evs'))).
    + by rewrite !app_nil_r.
    + intros seen_n n_components rest_n vars' evs' _ Hlog'.
      eapply emits_mono; [by apply bic_step_log|].
      intros [vars''|e] evs'' Hr; [|done]. simpl in *.
      by rewrite fmap_app, !app_assoc.
    + intros vars' evs' Hlog'.
      by rewrite bind_app, bind_singleton.
  - intros vars evs Hlog. cbn [app].
    destruct (best_gmm vars) as [gmm|] eqn:Hbest.
    + apply emits_ret. rewrite app_nil_r. intros ? [= <-]. eauto.
    + by apply emits_raise.
Qed.

Lemma gaussian_mixture_selection_log X n_clusters covariance_type
    max_clusters random_state kwargs :
  emits (gaussian_mixture X n_clusters covariance_type (VBool true)
           (VInt max_clusters) random_state kwargs)
    (λ r evs,
       ∀ v, r = Ok v →
         ∃ gmm vars evs0 r1 labels,
           v = VRef gmm ∧
           best_gmm vars = Some gmm ∧
           selection_log X random_state (candidates max_clusters) vars evs0 ∧
           evs = evs0 ++ [ECall gmm "fit" [X] [] (Returns r1);
                          ECall gmm "predict" [X] [] (Returns labels)]).
Proof.
  unfold gaussian_mixture, gaussian_mixture_fit. simpl.
  apply emits_bind.
  apply (emits_mono _ (λ r evs, evs = [])).
  { destruct (is_None random_state);
      [by apply emits_warn|by apply emits_ret]. }
  intros [[]|e] ? ->; [|done].
  apply emits_bind. eapply emits_mono; [apply bic_selection_log|].
  intros [gmm|e] evs0 Hsel; [|done].
  destruct (Hsel gmm eq_refl) as (vars & Hbest & Hlog).
  apply emits_bind, emits_call; [intros [r1|msg]; [|done]|done].
  apply emits_bind, emits_call; [intros [labels|msg]; [|done]|done].
  apply emits_bind, emits_setattr. intros [[]|e]; [|done].
  apply emits_ret. intros v [= <-]. simpl.
  by exists gmm, vars, evs0, r1, labels.
Qed.

(** X5.  With [best_model=True] a returning call of gaussian_mixture has
    built one model for each covariance type, in the order spherical,
    tied, diag, full, and each number of components from 1 to
    [max_clusters]: 4 * max_clusters models, each with the caller's
    [random_state], and no other.  [n_clusters] and [covariance_type]
    play no part. *)
Theorem selection_builds_every_candidate X n_clusters covariance_type
    max_clusters random_state kwargs (s : state ext) v s' :
  gaussian_mixture X n_clusters covariance_type (VBool true)
    (VInt max_clusters) random_state kwargs s = (Ok v, s') →
  ∃ evs,
    st_trace s' = st_trace s ++ evs ∧
    constructions evs
    = candidate_model random_state <$> candidates max_clusters ∧
    length (constructions evs) = (4 * Z.to_nat max_clusters)%nat.
Proof.
  intros Hrun.
  destruct (gaussian_mixture_selection_log X n_clusters covariance_type
              max_clusters random_state kwargs s) as (evs & Ht & Hq).
  rewrite Hrun in Ht, Hq. simpl in *.
  destruct (Hq v eq_refl)
    as (gmm & vars & evs0 & r1 & labels & _ & _ & (Hnew & _) & ->).
  assert (constructions (evs0 ++ [ECall gmm "fit" [X] [] (Returns r1);
                                  ECall gmm "predict" [X] [] (Returns labels)])
          = candidate_model random_state <$> candidates max_clusters) as Hc.
  { by rewrite constructions_app, Hnew, app_nil_r. }
  eexists. split_and!; [done|done|].
  by rewrite Hc, length_fmap, candidates_length.
Qed.

(** X6.  With [best_model=True] the model a call of gaussian_mixture
    returns is one whose BIC was computed in the loops, and no BIC
    computed in the loops is below it. *)
Theorem selected_model_has_lowest_bic X n_clusters covariance_type
    max_clusters random_state kwargs (s : state ext) v s' :
  gaussian_mixture X n_clusters covariance_type (VBool true)
    (VInt max_clusters) random_state kwargs s = (Ok v, s') →
  ∃ gmm lowest evs,
    v = VRef gmm ∧
    st_trace s' = st_trace s ++ evs ∧
    ECall gmm "bic" [X] [] (Returns lowest) ∈ evs ∧
    ∀ l args kw b,
      ECall l "bic" args kw (Returns b) ∈ evs → py_lt b lowest = Ok false.
Proof.
  intros Hrun.
  destruct (gaussian_mixture_selection_log X n_clusters covariance_type
              max_clusters random_state kwargs s) as (evs & Ht & Hq).
  rewrite Hrun in Ht, Hq. simpl in *.
  destruct (Hq v eq_refl)
    as (gmm & vars & evs0 & r1 & labels & -> & Hbest
        & (_ & _ & Hlow & Hfit) & ->).
  destruct (Hfit gmm Hbest) as (pre & post & r & Hevs0).
  exists gmm, (lowest_bic vars). eexists. split_and!; [done|done| |].
  - rewrite Hevs0. apply elem_of_app. left.
    apply elem_of_app. right. right. by left.
  - intros l args kw b Hin. apply elem_of_app in Hin as [Hin|Hin].
    + by eapply Hlow.
    + apply elem_of_cons in Hin as [[=]|Hin].
      by apply list_elem_of_singleton in Hin.
Qed.

(** X7.  With [best_model=True] the model that is returned is fitted
    twice: in the loops, where its BIC is computed right after, and once
    more after the loops, right before [predict] gives its labels. *)
Theorem selected_model_is_fitted_again X n_clusters covariance_type
    max_clusters random_state kwargs (s : state ext) v s' :
  gaussian_mixture X n_clusters covariance_type (VBool true)
    (VInt max_clusters) random_state kwargs s = (Ok v, s') →
  ∃ gmm pre mid r lowest r' labels,
    v = VRef gmm ∧
    st_trace s' = st_trace s
      ++ pre
      ++ [ECall gmm "fit" [X] [] (Returns r);
          ECall gmm "bic" [X] [] (Returns lowest)]
      ++ mid
      ++ [ECall gmm "fit" [X] [] (Returns r');
          ECall gmm "predict" [X] [] (Returns labels)].
Proof.
  intros Hrun.
  destruct (gaussian_mixture_selection_log X n_clusters covariance_type
              max_clusters random_state kwargs s) as (evs & Ht & Hq).
  rewrite Hrun in Ht, Hq. simpl in *.
  destruct (Hq v eq_refl)
    as (gmm & vars & evs0 & r1 & labels & -> & Hbest
        & (_ & _ & _ & Hfit) & ->).
  destruct (Hfit gmm Hbest) as (pre & post & r & ->).
  exists gmm, pre, post, r, (lowest_bic vars), r1, labels.
  split; [done|]. rewrite Ht. by rewrite <- !app_assoc.
Qed.

End SelectionOfTheBestModel.

(** ** Argument binding once more *)

Lemma bind_params_too_many params args kw :
  (length params < length args)%nat →
  bind_params params args kw = Raise TypeError.
Proof.
  revert args kw.
  induction params as [|[p d] params IH]; intros args kw Hlen; simpl.
  - destruct args; [simpl in Hlen; lia|done].
  - destruct args as [|a args]; [simpl in Hlen; lia|].
    destruct (kw !! p); [done|].
    rewrite IH; [done|]. simpl in Hlen. lia.
Qed.

Lemma bind_params_missing params args (kw : gmap string value) i p :
  params !! i = Some (p, None) → (length args ≤ i)%nat → kw !! p = None →
  bind_params params args kw = Raise TypeError.
Proof.
  revert args kw i.
  induction params as [|[q d] params IH]; intros args kw i Hi Hlen Hkw;
    [done|]. simpl.
  destruct args as [|a args].
  - destruct i as [|i]; simpl in Hi.
    + injection Hi as -> ->. by rewrite Hkw.
    + assert (bind_params params [] (delete q kw) = Raise TypeError) as ->.
      { apply (IH _ _ i); [done|simpl; lia|].
        rewrite lookup_delete. by case_decide. }
      by destruct (kw !! q), d.
  - destruct i as [|i]; [simpl in Hlen; lia|].
    destruct (kw !! q); [done|].
    rewrite (IH _ _ i); [done|done|simpl in Hlen; lia|done].
Qed.

(** Binding looks at the keywords that name a parameter and at no
    other. *)
Lemma bind_params_only_parameters params args (kw kw' : gmap string value) :
  (∀ p, p ∈ params.*1 → kw !! p = kw' !! p) →
  match bind_params params args kw, bind_params params args kw' with
  | Ok (vs, _), Ok (vs', _) => vs = vs'
  | Raise e, Raise e' => e = e'
  | _, _ => False
  end.
Proof.
  revert args kw kw'.
  induction params as [|[p d] params IH]; intros args kw kw' Hkw; simpl.
  - by destruct args.
  - rewrite <- (Hkw p) by (simpl; left).
    destruct args as [|a args].
    + assert (∀ q, q ∈ params.*1 → delete p kw !! q = delete p kw' !! q)
        as Hdel.
      { intros q Hq. rewrite !lookup_delete. case_decide; [done|].
        apply Hkw. by right. }
      specialize (IH [] _ _ Hdel).
      destruct (kw !! p), d; try done;
        destruct (bind_params params [] (delete p kw)) as [[vs r]|],
          (bind_params params [] (delete p kw')) as [[vs' r']|];
        try done; by subst.
    + destruct (kw !! p); [done|].
      assert (∀ q, q ∈ params.*1 → kw !! q = kw' !! q) as Hrest.
      { intros q Hq. apply Hkw. by right. }
      specialize (IH args _ _ Hrest).
      destruct (bind_params params args kw) as [[vs r]|],
        (bind_params params args kw') as [[vs' r']|]; try done; by subst.
Qed.

Section CallsOfAdapters.
Context {ext : Type} {L : Library ext}.

Lemma body_of_kwargs f vs kwargs kwargs' :
  (body_of f vs kwargs : M ext value) = body_of f vs kwargs'.
Proof.
  destruct f; simpl; by do 7 (try (destruct vs as [|? vs]; [try done|])).
Qed.

(** X8.  Keywords that name no parameter of an adapter are accepted and
    play no part: two calls whose keywords agree on the names of the
    adapter's parameters have the same outcome and end in the same
    state. *)
Theorem other_keywords_are_ignored f args (kw kw' : gmap string value)
    (s : state ext) :
  (∀ p, p ∈ (sig_params (signature_of f)).*1 → kw !! p = kw' !! p) →
  call_entry f args kw s = call_entry f args kw' s.
Proof.
  intros Hkw. unfold call_entry, bind_signature.
  assert (sig_var_kw (signature_of f) = true) as -> by by destruct f.
  pose proof (bind_params_only_parameters _ args _ _ Hkw) as Hbind.
  destruct (bind_params _ args kw) as [[vs r]|],
    (bind_params _ args kw') as [[vs' r']|]; try done.
  - subst vs'. by rewrite (body_of_kwargs f vs r r').
  - by subst.
Qed.

(** X9.  A call that gives more positional arguments than the adapter
    has parameters, or leaves [X], or [w] of a spatial adapter, without
    value, raises TypeError and does nothing else: the state is as
    before the call. *)
Theorem badly_called_adapter_raises f args kw (s : state ext) :
  badly_called f args kw →
  call_entry f args kw s = (Raise TypeError, s).
Proof.
  intros Hbad. unfold call_entry, bind_signature.
  assert (bind_params (sig_params (signature_of f)) args kw = Raise TypeError)
    as ->; [|done].
  destruct Hbad as [Hlen|(i & p & Hi & Hlen & Hkw)].
  - by apply bind_params_too_many.
  - by eapply bind_params_missing.
Qed.

(** X10.  gaussian_mixture selects a model only when [best_model] is the
    constant True.  With any other value a returning call has made three
    calls into the library: it has built one mixture with [n_clusters]
    components, the given [covariance_type] and [random_state], fitted
    it and asked it for the labels.  [max_clusters] plays no part. *)
Theorem one_mixture_without_selection X n_clusters covariance_type best_model
    max_clusters random_state kwargs (s : state ext) v s' :
  best_model ≠ VBool true →
  gaussian_mixture X n_clusters covariance_type best_model max_clusters
    random_state kwargs s = (Ok v, s') →
  ∃ l r labels,
    v = VRef l ∧
    st_trace s' = st_trace s
      ++ [ENew GaussianMixture []
            [("n_components", n_clusters); ("random_state", random_state);
             ("covariance_type", covariance_type)] (Returns l);
          ECall l "fit" [X] [] (Returns r);
          ECall l "predict" [X] [] (Returns labels)].
Proof.
  intros Hbest Hrun.
  assert (is_True best_model = false) as Htest.
  { destruct best_model as [|[]| | | | | | | |]; done. }
  assert (emits (gaussian_mixture X n_clusters covariance_type best_model
                   max_clusters random_state kwargs)
            (λ r evs, ∀ v, r = Ok v →
               ∃ l r1 labels,
                 v = VRef l ∧
                 evs = [ENew GaussianMixture []
                          [("n_components", n_clusters);
                           ("random_state", random_state);
                           ("covariance_type", covariance_type)] (Returns l);
                        ECall l "fit" [X] [] (Returns r1);
                        ECall l "predict" [X] [] (Returns labels)]))
    as Hemits.
  { unfold gaussian_mixture, gaussian_mixture_fit. rewrite Htest.
    apply emits_bind.
    apply (emits_mono _ (λ r evs, evs = [])).
    { destruct (is_None random_state);
        [by apply emits_warn|by apply emits_ret]. }
    intros [[]|e] ? ->; [|done].
    repeat emits_step; try done.
    intros ? [= <-]. eauto. }
  destruct (Hemits s) as (evs & Ht & Hq). rewrite Hrun in Ht, Hq.
  destruct (Hq v eq_refl) as (l & r & labels & -> & ->). eauto.
Qed.

(** X11.  With [best_model=True] a call of gaussian_mixture can return
    only if [max_clusters] is an integer of at least 1 (or the Boolean
    True, which counts as 1): with any other value every such call
    raises. *)
Theorem selection_needs_positive_max_clusters X n_clusters covariance_type
    max_clusters random_state kwargs (s : state ext) v s' :
  gaussian_mixture X n_clusters covariance_type (VBool true) max_clusters
    random_state kwargs s = (Ok v, s') →
  max_clusters = VBool true ∨ ∃ n, max_clusters = VInt n ∧ 1 ≤ n.
Proof.
  rewrite gaussian_mixture_unfold. set (sw := State _ _ _ _ _).
  destruct max_clusters as [|[]|n| | | | | | |]; try done; [by left|].
  destruct (decide (1 ≤ n)) as [Hn|Hn]; [by eauto|].
  by rewrite selection_without_iterations by lia.
Qed.

(** X12.  Only gaussian_mixture warns: a call of any other adapter,
    whatever its outcome, emits no warning. *)
Theorem only_gaussian_mixture_warns f args kw (s : state ext) :
  f ≠ def_gaussian_mixture →
  st_warnings (call_entry f args kw s).2 = st_warnings s.
Proof.
  intros Hf. unfold call_entry.
  destruct (bind_signature (signature_of f) args kw) as [[vs kwargs]|e];
    [|done].
  assert (steady (body_of f vs kwargs : M ext value)) as Hsteady.
  { destruct f; try done; simpl;
      do 7 (try (destruct vs as [|? vs]; [try apply steady_raise|]));
      try apply steady_raise;
      unfold ward, kmeans, affinity_propagation, spectral, hdbscan,
        ward_spatial, spenc, skater, azp, max_p; solve_steady. }
  by destruct (Hsteady s) as (_ & -> & _).
Qed.

(** X13.  The attributes the adapters read from their arguments, and
    when.  ward_spatial reads [w.sparse] before it builds its model:
    with a [w] that has no such attribute, and whatever [X] is, it
    raises AttributeError and has not called the library.  spenc reads
    [w.sparse], and max_p reads [X.values], after building the model and
    before fitting it: with a [w], for max_p an [X], that lacks the
    attribute, and whatever the other argument is, the constructor is
    the only call into the library, and the call raises. *)
Theorem attribute_reads_and_their_order X w n_clusters gamma
    threshold_variable threshold kwargs (s : state ext) :
  (lacks (ext := ext) w "sparse" →
     ward_spatial X w n_clusters kwargs s
     = (Raise (AttributeError "sparse"), s) ∧
     ∃ res,
       st_trace (spenc X w n_clusters gamma kwargs s).2
       = st_trace s
           ++ [ENew SPENC [] [("n_clusters", n_clusters); ("gamma", gamma)]
                 res] ∧
       (spenc X w n_clusters gamma kwargs s).1
       = match res with
         | Returns _ => Raise (AttributeError "sparse")
         | Raises msg => Raise (LibraryError msg)
         end) ∧
  (lacks (ext := ext) X "values" →
     ∃ res,
       st_trace (max_p X w threshold_variable threshold kwargs s).2
       = st_trace s ++ [ENew MaxPRegionsHeu [] [] res] ∧
       (max_p X w threshold_variable threshold kwargs s).1
       = match res with
         | Returns _ => Raise (AttributeError "values")
         | Raises msg => Raise (LibraryError msg)
         end).
Proof.
  split.
  - intros Hw. split.
    + unfold ward_spatial, mbind, M_mbind, M_bind. by rewrite Hw.
    + unfold spenc, mbind, M_mbind, M_bind, new.
      destruct (lib_new SPENC _ _ (st_ext s)) as [[attrs|msg] e'].
      * eexists (Returns _). by rewrite Hw.
      * by eexists (Raises _).
  - intros HX. unfold max_p, mbind, M_mbind, M_bind, new.
    destruct (lib_new MaxPRegionsHeu _ _ (st_ext s)) as [[attrs|msg] e'].
    + eexists (Returns _). by rewrite HX.
    + by eexists (Raises _).
Qed.

End CallsOfAdapters.

(** ** The further properties on the sample library *)

Lemma earlier_models_untouched_witness :
  ∃ o,
    st_heap used_state !! 0%nat = Some o ∧
    st_heap (call_entry (L := stub_library) def_gaussian_mixture [sample_X]
               select_best used_state).2 !! 0%nat = Some o ∧
    ∃ evs,
      st_trace (call_entry (L := stub_library) def_gaussian_mixture
                  [sample_X] select_best used_state).2
      = st_trace used_state ++ evs ∧
      ∀ l' meth margs mkw res,
        ECall l' meth margs mkw res ∈ evs →
        l' ≠ 0%nat ∧ st_heap used_state !! l' = None.
Proof.
  eexists. split; [vm_compute; reflexivity|].
  apply (earlier_models_untouched (L := stub_library)).
  vm_compute. reflexivity.
Defined.

Lemma later_call_keeps_earlier_model_witness :
  ∃ l1 l2 o1,
    VRef 0%nat = VRef l1 ∧ VRef 3%nat = VRef l2 ∧ l1 ≠ l2 ∧
    st_heap used_state !! l1 = Some o1 ∧
    st_heap (call_entry (L := stub_library) def_gaussian_mixture [sample_X]
               select_best used_state).2 !! l1 = Some o1.
Proof.
  apply (later_call_keeps_earlier_model (L := stub_library)
           def_kmeans [sample_X] ∅ def_gaussian_mixture [sample_X] select_best
           (initial_state 0%nat)).
  - vm_compute. reflexivity.
  - vm_compute. reflexivity.
Defined.

Lemma one_model_one_fit_witness :
  ∃ l cargs ckw margs mkw res,
    VRef 1%nat = VRef l ∧
    st_trace (call_entry (L := stub_library) def_skater [sample_X; sample_w]
                ∅ used_state).2
    = st_trace used_state
        ++ [ENew (class_of def_skater) cargs ckw (Returns l);
            ECall l (fit_routine def_skater) margs mkw (Returns res)].
Proof.
  apply (one_model_one_fit (L := stub_library) def_skater
           [sample_X; sample_w] ∅ used_state).
  - done.
  - vm_compute. reflexivity.
Defined.

Lemma selection_builds_every_candidate_witness :
  ∃ evs,
    st_trace (gaussian_mixture (L := stub_library) sample_X (VInt 5)
                (VStr "full") (VBool true) (VInt 2) (VInt 0) ∅
                (initial_state 0%nat)).2
    = st_trace (initial_state 0%nat) ++ evs ∧
    constructions evs = candidate_model (VInt 0) <$> candidates 2 ∧
    length (constructions evs) = (4 * Z.to_nat 2)%nat.
Proof.
  apply (selection_builds_every_candidate (L := stub_library) sample_X
           (VInt 5) (VStr "full") 2 (VInt 0) ∅ (initial_state 0%nat)
           (VRef 1%nat)).
  vm_compute. reflexivity.
Defined.

Lemma selected_model_has_lowest_bic_witness :
  ∃ gmm lowest evs,
    VRef 1%nat = VRef gmm ∧
    st_trace (gaussian_mixture (L := stub_library) sample_X (VInt 5)
                (VStr "full") (VBool true) (VInt 2) (VInt 0) ∅
                (initial_state 0%nat)).2
    = st_trace (initial_state 0%nat) ++ evs ∧
    ECall gmm "bic" [sample_X] [] (Returns lowest) ∈ evs ∧
    ∀ l args kw b,
      ECall l "bic" args kw (Returns b) ∈ evs → py_lt b lowest = Ok false.
Proof.
  apply (selected_model_has_lowest_bic (L := stub_library) sample_X
           (VInt 5) (VStr "full") 2 (VInt 0) ∅ (initial_state 0%nat)).
  vm_compute. reflexivity.
Defined.

Lemma selected_model_is_fitted_again_witness :
  ∃ gmm pre mid r lowest r' labels,
    VRef 1%nat = VRef gmm ∧
    st_trace (gaussian_mixture (L := stub_library) sample_X (VInt 5)
                (VStr "full") (VBool true) (VInt 2) (VInt 0) ∅
                (initial_state 0%nat)).2
    = st_trace (initial_state 0%nat)
        ++ pre
        ++ [ECall gmm "fit" [sample_X] [] (Returns r);
            ECall gmm "bic" [sample_X] [] (Returns lowest)]
        ++ mid
        ++ [ECall gmm "fit" [sample_X] [] (Returns r');
            ECall gmm "predict" [sample_X] [] (Returns labels)].
Proof.
  apply (selected_model_is_fitted_again (L := stub_library) sample_X
           (VInt 5) (VStr "full") 2 (VInt 0) ∅ (initial_state 0%nat)).
  vm_compute. reflexivity.
Defined.

Lemma other_keywords_are_ignored_witness :
  call_entry (L := stub_library) def_kmeans [sample_X]
    {["n_clusters" := VInt 3; "n_init" := VInt 10]} (initial_state 0%nat)
  = call_entry (L := stub_library) def_kmeans [sample_X]
      {["n_clusters" := VInt 3]} (initial_state 0%nat).
Proof.
  apply (other_keywords_are_ignored (L := stub_library)).
  intros p Hp. simpl in Hp.
  repeat (apply elem_of_cons in Hp as [->|Hp]); try reflexivity.
  by apply elem_of_nil in Hp.
Defined.

Lemma badly_called_adapter_raises_witness :
  call_entry (L := stub_library) def_spenc [sample_X] ∅ used_state
  = (Raise TypeError, used_state).
Proof.
  apply (badly_called_adapter_raises (L := stub_library)).
  right. exists 1%nat, "w". split_and!; [reflexivity|simpl; lia|reflexivity].
Defined.

Lemma one_mixture_without_selection_witness :
  ∃ l r labels,
    VRef 0%nat = VRef l ∧
    st_trace (gaussian_mixture (L := stub_library) sample_X (VInt 5)
                (VStr "full") (VInt 1) (VInt 2) (VInt 0) ∅
                (initial_state 0%nat)).2
    = st_trace (initial_state 0%nat)
        ++ [ENew GaussianMixture []
              [("n_components", VInt 5); ("random_state", VInt 0);
               ("covariance_type", VStr "full")] (Returns l);
            ECall l "fit" [sample_X] [] (Returns r);
            ECall l "predict" [sample_X] [] (Returns labels)].
Proof.
  apply (one_mixture_without_selection (L := stub_library) sample_X (VInt 5)
           (VStr "full") (VInt 1) (VInt 2) (VInt 0) ∅ (initial_state 0%nat)).
  - done.
  - vm_compute. reflexivity.
Defined.

Lemma selection_needs_positive_max_clusters_witness :
  VInt 2 = VBool true ∨ ∃ n, VInt 2 = VInt n ∧ 1 ≤ n.
Proof.
  apply (selection_needs_positive_max_clusters (L := stub_library) sample_X
           (VInt 5) (VStr "full") (VInt 2) (VInt 0) ∅ (initial_state 0%nat)
           (VRef 1%nat)
           (gaussian_mixture (L := stub_library) sample_X (VInt 5)
              (VStr "full") (VBool true) (VInt 2) (VInt 0) ∅
              (initial_state 0%nat)).2).
  vm_compute. reflexivity.
Defined.

Lemma only_gaussian_mixture_warns_witness :
  st_warnings (call_entry (L := stub_library) def_hdbscan [sample_X] ∅
                 used_state).2
  = st_warnings used_state.
Proof.
  apply (only_gaussian_mixture_warns (L := stub_library)). done.
Defined.

Lemma attribute_reads_and_their_order_witness :
  (ward_spatial (L := stub_library) sample_frame sample_X (VInt 5) ∅
     used_state
   = (Raise (AttributeError "sparse"), used_state) ∧
   ∃ res,
     st_trace (spenc (L := stub_library) sample_frame sample_X (VInt 5)
                 (VInt 1) ∅ used_state).2
     = st_trace used_state
         ++ [ENew SPENC [] [("n_clusters", VInt 5); ("gamma", VInt 1)] res] ∧
     (spenc (L := stub_library) sample_frame sample_X (VInt 5) (VInt 1) ∅
        used_state).1
     = match res with
       | Returns _ => Raise (AttributeError "sparse")
       | Raises msg => Raise (LibraryError msg)
       end) ∧
  (∃ res,
     st_trace (max_p (L := stub_library) sample_X sample_w (VStr "count")
                 (VInt 10) ∅ used_state).2
     = st_trace used_state ++ [ENew MaxPRegionsHeu [] [] res] ∧
     (max_p (L := stub_library) sample_X sample_w (VStr "count") (VInt 10) ∅
        used_state).1
     = match res with
       | Returns _ => Raise (AttributeError "values")
       | Raises msg => Raise (LibraryError msg)
       end).
Proof.
  split.
  - apply (proj1 (attribute_reads_and_their_order (L := stub_library)
                    sample_frame sample_X (VInt 5) (VInt 1) (VStr "count")
                    (VInt 10) ∅ used_state)).
    intros s. reflexivity.
  - apply (proj2 (attribute_reads_and_their_order (L := stub_library)
                    sample_X sample_w (VInt 5) (VInt 1) (VStr "count")
                    (VInt 10) ∅ used_state)).
    intros s. reflexivity.
Defined.
